(** * Partitioning and collective-communication protocol of
      [model/func_impl.py] and [data/data_parallel_preprocess.py]

    A shallow embedding of the two Python modules.  Python integers are [Z]
    (floor division and modulo are [Z.div] and [Z.modulo], which agree with
    Python's [//] and [%] for every non-zero divisor), exceptions are an
    error monad, NumPy arrays are shaped lists, and an MPI communicator is
    seen from one rank: it carries what the other members of the group pass
    to the collective of the current round.  What MPI leaves to the
    implementation (the order in which a reduction combines the members'
    values, the treatment of a negative colour) is a parameter. *)

From stdpp Require Import base numbers list sorting.

Local Open Scope Z_scope.

(** ** Exceptions *)

Inductive exn :=
  | ZeroDivisionError
  | ValueError
  | IndexError
  | OverflowError
  | MPIException.

Inductive result (T : Type) :=
  | Ok (v : T)
  | Raise (e : exn).
Arguments Ok {T} v.
Arguments Raise {T} e.

#[global] Instance result_ret : MRet result := λ T v, Ok v.
#[global] Instance result_bind : MBind result := λ T U k m,
  match m with Ok v => k v | Raise e => Raise e end.

Definition raises {T} (m : result T) : Prop := ∃ e, m = Raise e.

(** ** Python integers and sequences *)

(** [a // b] *)
Definition floordiv (a b : Z) : result Z :=
  if decide (b = 0) then Raise ZeroDivisionError else Ok (a / b).

(** [a % b] *)
Definition pymod (a b : Z) : result Z :=
  if decide (b = 0) then Raise ZeroDivisionError else Ok (a mod b).

(** Bound adjustment of a slice [start:stop] (step 1) on a sequence of
    length [len]: a negative bound counts from the end, and both bounds are
    clipped to [0, len]. *)
Definition adjust_index (len : nat) (i : Z) : nat :=
  Z.to_nat (if decide (i < 0) then Z.max (i + Z.of_nat len) 0
            else Z.min i (Z.of_nat len)).

(** [l[start:stop]] *)
Definition getslice {T} (l : list T) (start stop : Z) : list T :=
  let s := adjust_index (length l) start in
  let e := adjust_index (length l) stop in
  take (e - s) (drop s l).

(** [l[i]] on a Python list *)
Definition getitem {T} (l : list T) (i : Z) : result T :=
  let n := Z.of_nat (length l) in
  let j := if decide (i < 0) then i + n else i in
  if decide (0 ≤ j < n) then
    match l !! Z.to_nat j with Some v => Ok v | None => Raise IndexError end
  else Raise IndexError.

(** The values of a C [int], the type of the ranks, colours and keys that
    mpi4py hands to MPI; a Python integer outside of it is an
    [OverflowError]. *)
Definition INT_MAX : Z := 2 ^ 31 - 1.
Definition fits_int (z : Z) : Prop := - 2 ^ 31 ≤ z ≤ INT_MAX.

#[global] Instance fits_int_dec z : Decision (fits_int z).
Proof. unfold fits_int. apply _. Defined.

(** ** NumPy arrays

    A one-dimensional array is a list.  A two-dimensional array of shape
    [(nrows, ncols)] is the list of its rows together with the width, which
    an array keeps even when it has no row. *)

Record ndarray (A : Type) := NDArray { ncols : nat; rows : list (list A) }.
Arguments NDArray {A} ncols rows.
Arguments ncols {A} _.
Arguments rows {A} _.

Definition nrows {A} (a : ndarray A) : nat := length (rows a).
Definition shape {A} (a : ndarray A) : nat * nat := (nrows a, ncols a).

(** Every row has the declared width. *)
Definition wf {A} (a : ndarray A) : Prop :=
  Forall (λ r, length r = ncols a) (rows a).

(** [a[start:stop]]: a slice along the leading axis. *)
Definition getslice0 {A} (a : ndarray A) (start stop : Z) : ndarray A :=
  NDArray (ncols a) (getslice (rows a) start stop).

(** ** [data/data_parallel_preprocess.py] *)

Definition split_data {A B} (x_train : ndarray A) (y_train : list B)
    (mp_size dp_size rank : Z) : result (ndarray A * list B) :=
  dp_group_id ← floordiv rank mp_size;
  let data_num := Z.of_nat (nrows x_train) in
  chunk_size ← floordiv data_num dp_size;
  let start_idx := dp_group_id * chunk_size in
  let end_idx := start_idx + chunk_size in
  let split_x_train := getslice0 x_train start_idx end_idx in
  let split_y_train := getslice y_train start_idx end_idx in
  Ok (split_x_train, split_y_train).

(** ** The communicator, seen from one rank

    [lower] holds what the members of lower group rank pass to the
    collective of the current round, in rank order, and [upper] what the
    members of higher rank pass. *)

Record Comm (X : Type) := Group { lower : list X; upper : list X }.
Arguments Group {X} lower upper.
Arguments lower {X} _.
Arguments upper {X} _.

Definition Get_rank {X} (comm : Comm X) : nat := length (lower comm).

(** The contributions of one round in group rank order, the caller's own
    at its rank. *)
Definition round {X} (comm : Comm X) (x : X) : list X :=
  lower comm ++ x :: upper comm.

Definition comm_map {X Y} (f : X → Y) (comm : Comm X) : Comm Y :=
  Group (f <$> lower comm) (f <$> upper comm).

(** The view of member [i] of a group whose members pass [sends]. *)
Definition view {X} (i : nat) (sends : list X) : Comm X :=
  Group (take i sends) (drop (S i) sends).

(** ** What MPI leaves to the implementation *)

(** The order in which a reduction combines the values of the members of a
    group: a binary tree whose leaves are group ranks. *)
Inductive schedule :=
  | Member (k : nat)
  | Plus (l r : schedule).

Fixpoint leaves (t : schedule) : list nat :=
  match t with
  | Member k => [k]
  | Plus l r => leaves l ++ leaves r
  end.

(** A reduction takes the value of every member once: the leaves of an
    order over [n] members are the ranks of the group. *)
Definition covers (t : schedule) (n : nat) : Prop := leaves t ≡ₚ seq 0 n.

(** An order for every reduction: for a group of [n] members and buffers
    of [count] elements, the order in which the members' values at
    position [p] are combined. *)
Definition orders : Type := nat → nat → nat → schedule.

Definition valid_orders (order : orders) : Prop :=
  ∀ n count p : nat, (1 ≤ n)%nat → covers (order n count p) n.

(** An implementation: the value of [MPI_UNDEFINED] (a negative colour,
    [- UNDEFINED_abs]), whether [Split] takes the other negative colours
    as colours or refuses them, and the orders in which [Allreduce] and
    [Reduce_scatter] combine the members' values under [MPI.SUM]. *)
Record MPI := {
  UNDEFINED_abs : positive;
  negative_colours : bool;
  Allreduce_order : orders;
  Reduce_scatter_order : orders;
  Allreduce_order_valid : valid_orders Allreduce_order;
  Reduce_scatter_order_valid : valid_orders Reduce_scatter_order
}.

Definition MPI_UNDEFINED (impl : MPI) : Z := Z.neg (UNDEFINED_abs impl).

(** The reduction in group rank order, [((v0 + v1) + v2) + ...]. *)
Fixpoint chain (n : nat) : schedule :=
  match n with
  | 0%nat => Member 0
  | S m => match m with 0%nat => Member 0 | S _ => Plus (chain m) (Member m) end
  end.

(** An implementation that takes negative colours, whose [Allreduce]
    adds the values of four members as [(v0 + v1) + (v2 + v3)] and those
    of any other group in rank order, and whose [Reduce_scatter] adds in
    rank order. *)
Definition pairwise_mpi : MPI.
Proof.
  assert (∀ n, (1 ≤ n)%nat → covers (chain n) n) as Hchain.
  { intros n Hn. unfold covers. induction n as [|[|m] IH]; [lia | done |].
    change (leaves (chain (S (S m))))
      with (leaves (chain (S m)) ++ [S m]).
    rewrite IH by lia. by rewrite (seq_S (S m)). }
  refine {|
    UNDEFINED_abs := 32766;
    negative_colours := true;
    Allreduce_order n count p :=
      if decide (n = 4%nat)
      then Plus (Plus (Member 0) (Member 1)) (Plus (Member 2) (Member 3))
      else chain n;
    Reduce_scatter_order n count p := chain n
  |}.
  - intros n count p Hn. case_decide; [subst n; by unfold covers|].
    by apply Hchain.
  - intros n count p Hn. by apply Hchain.
Defined.

(** ** [model/func_impl.py]: [get_info] *)

(** [comm.Split(color, key)] on a communicator whose other members pass
    the colours and keys [comm] in the same round.  A colour or key that is
    no C [int] is an [OverflowError]; the colour [MPI_UNDEFINED] gives the
    null communicator, with no member; another negative colour is taken or
    refused as the implementation decides.  The new communicator holds the
    members that passed the caller's colour, the caller among them, in the
    order of their keys; it is represented by the keys of its members in
    group rank order. *)
Definition Split (impl : MPI) (comm : Comm (Z * Z)) (color key : Z)
    : result (list Z) :=
  if decide (fits_int color ∧ fits_int key) then
    if decide (color = MPI_UNDEFINED impl) then Ok []
    else if decide (color < 0 ∧ negative_colours impl = false)
    then Raise MPIException
    else
      Ok (merge_sort Z.le
            (snd <$> filter (λ m, m.1 = color) (round comm (color, key))))
  else Raise OverflowError.

(** The tuple [get_info] returns.  The key of both splits is the rank, so a
    communicator is the list of the ranks of its members in group rank
    order. *)
Record info := Info {
  mp_idx : Z;
  dp_idx : Z;
  mp_comm : list Z;
  dp_comm : list Z;
  part_in_dim : Z;
  part_out_dim : Z
}.

(** [comm] holds the [rank] arguments of the other members of the
    communicator: every process runs [get_info] with its own rank and the
    same [mp_size], so the member of rank [r] passes the colour
    [r // mp_size] to the first split and [r % mp_size] to the second, and
    [r] as key. *)
Definition get_info (impl : MPI) (comm : Comm Z) (rank mp_size dp_size : Z)
    (is_fc1 is_megatron_mp : bool) (in_dim out_dim : Z) : result info :=
  mp_idx ← pymod rank mp_size;
  dp_idx ← floordiv rank mp_size;
  mp_comm ← Split impl (comm_map (λ r, (r / mp_size, r)) comm) dp_idx rank;
  dp_comm ← Split impl (comm_map (λ r, (r mod mp_size, r)) comm) mp_idx rank;
  '(part_in_dim, part_out_dim) ←
    (if is_fc1 then
       part_out_dim ← floordiv out_dim mp_size;
       Ok (in_dim, part_out_dim)
     else if is_megatron_mp then
       part_in_dim ← floordiv in_dim mp_size;
       Ok (part_in_dim, out_dim)
     else
       part_out_dim ← floordiv out_dim mp_size;
       Ok (in_dim, part_out_dim));
  Ok (Info mp_idx dp_idx mp_comm dp_comm part_in_dim part_out_dim).

(** ** NumPy operations used by the collectives *)

Section numpy.
Context {A : Type}.

(** [np.concatenate(arrs, axis=1)]: the arrays must agree on the number
    of rows; row [i] of the result is row [i] of each array in turn. *)
Definition concatenate1 (arrs : list (ndarray A)) : result (ndarray A) :=
  match arrs with
  | [] => Raise ValueError
  | a :: _ =>
    if decide (Forall (λ b, nrows b = nrows a) arrs) then
      Ok (NDArray (sum_list (ncols <$> arrs))
            ((λ i, concat ((λ b, default [] (rows b !! i)) <$> arrs))
               <$> seq 0 (nrows a)))
    else Raise ValueError
  end.

(** [np.split(a, sections, axis=1)] with an integer [sections]: the
    division of the width must be exact. *)
Definition split1 (a : ndarray A) (sections : Z)
    : result (list (ndarray A)) :=
  r ← pymod (Z.of_nat (ncols a)) sections;
  if decide (r ≠ 0) then Raise ValueError
  else if decide (sections ≤ 0) then Raise ValueError
  else
    let w := (ncols a `div` Z.to_nat sections)%nat in
    Ok ((λ p, NDArray w ((λ row, take w (drop (p * w) row)) <$> rows a))
          <$> seq 0 (Z.to_nat sections)).

(** [a.T] *)
Definition transpose (a : ndarray A) : ndarray A :=
  NDArray (nrows a)
    ((λ j, omap (λ row : list A, row !! j) (rows a)) <$> seq 0 (ncols a)).

(** [a.flatten()]: the elements in row-major order; this is also the
    buffer a C-contiguous array hands to MPI. *)
Definition flatten (a : ndarray A) : list A := concat (rows a).

Definition size (a : ndarray A) : nat := (nrows a * ncols a)%nat.

(** [np.reshape(buf, (p, b))] of a one-dimensional [buf].  A negative [p]
    raises: the one negative dimension NumPy would infer, [-1], reaches
    this call only with [b = 0], where nothing can be inferred. *)
Definition reshape (buf : list A) (p : Z) (b : nat) : result (ndarray A) :=
  if decide (p < 0) then Raise ValueError
  else if decide (length buf ≠ (Z.to_nat p * b)%nat) then Raise ValueError
  else
    Ok (NDArray b
          ((λ i, take b (drop (i * b) buf)) <$> seq 0 (Z.to_nat p))).

(** [np.empty(n)] and [np.empty_like(a)]: the content is not initialised,
    so the array is represented by its length, or by its shape. *)
Definition empty (n : Z) : result nat :=
  if decide (n < 0) then Raise ValueError else Ok (Z.to_nat n).

Definition empty_like (a : ndarray A) : nat * nat := shape a.

(** [np.ascontiguousarray(a)] and [a.copy()] change the memory layout, not
    the elements. *)
Definition ascontiguousarray (a : ndarray A) : ndarray A := a.
Definition copy (a : ndarray A) : ndarray A := a.
End numpy.

Section collectives.
(** The element type of the arrays (float64 in the program), its addition
    and the MPI implementation. *)
Context {A : Type} (add : A → A → A) (impl : MPI).

(** [comm.allgather(x)]: the list of every member's object. *)
Definition allgather {X} (comm : Comm X) (x : X) : list X := round comm x.

(** The values [vals] of the members, combined in the order [t]. *)
Fixpoint combine (vals : list A) (t : schedule) : option A :=
  match t with
  | Member k => vals !! k
  | Plus l r => x ← combine vals l; y ← combine vals r; Some (add x y)
  end.

(** The members' values at position [p] of their buffers, in rank order. *)
Definition column (p : nat) (bufs : list (list A)) : list A :=
  omap (λ b : list A, b !! p) bufs.

(** [MPI.SUM] over the members' buffers, which must have one length: at
    every position, the members' values combined in the order the
    implementation applies there. *)
Definition reduce_sum (order : orders) (bufs : list (list A))
    : result (list A) :=
  match bufs with
  | [] => Raise MPIException
  | b :: bs =>
    if decide (Forall (λ c, length c = length b) bs)
    then
      Ok (omap (λ p, combine (column p bufs)
                       (order (length bufs) (length b) p))
            (seq 0 (length b)))
    else Raise MPIException
  end.

(** [comm.Allreduce(sendbuf, recvbuf, op=MPI.SUM)] on arrays: the buffers
    are the flattened arrays, the sum is stored in the receive array. *)
Definition Allreduce (comm : Comm (ndarray A)) (sendbuf : ndarray A)
    (recvbuf : nat * nat) : result (ndarray A) :=
  if decide (size sendbuf ≠ (recvbuf.1 * recvbuf.2)%nat) then Raise ValueError
  else
    total ← reduce_sum (Allreduce_order impl) (flatten <$> round comm sendbuf);
    reshape total (Z.of_nat recvbuf.1) recvbuf.2.

(** [comm.Reduce_scatter(sendbuf, recvbuf, op=MPI.SUM)] without receive
    counts: member [k] receives as many elements as its receive buffer
    holds, the counts must add up to the length of the send buffer, and
    the segments of the element-wise sum are handed out in rank order.
    A member contributes its send buffer and the length of its receive
    buffer. *)
Definition Reduce_scatter (comm : Comm (list A * nat)) (sendbuf : list A)
    (recvbuf : nat) : result (list A) :=
  let msgs := round comm (sendbuf, recvbuf) in
  let recvcounts := snd <$> msgs in
  if decide (length sendbuf ≠ sum_list recvcounts) then Raise ValueError
  else
    total ← reduce_sum (Reduce_scatter_order impl) (fst <$> msgs);
    Ok (take recvbuf
          (drop (sum_list (take (Get_rank comm) recvcounts)) total)).

(** *** Forward collectors *)

Definition naive_collect_forward_input (x : ndarray A)
    (mp_comm : Comm (ndarray A)) (mp_size : Z) : result (ndarray A) :=
  let gathered := allgather mp_comm x in
  collected_x ← concatenate1 gathered;
  Ok collected_x.

Definition naive_collect_forward_output (out : ndarray A)
    (mp_comm : Comm (ndarray A)) (mp_size : Z) : result (ndarray A) :=
  let gathered := allgather mp_comm out in
  collected_out ← concatenate1 gathered;
  Ok collected_out.

Definition megatron_collect_forward_input {X} (x : ndarray A)
    (mp_comm : Comm X) (mp_size : Z) : ndarray A := x.

Definition megatron_collect_forward_output (out : ndarray A)
    (mp_comm : Comm (ndarray A)) (mp_size : Z) : result (ndarray A) :=
  let collected_out := empty_like out in
  Allreduce mp_comm out collected_out.

(** *** Backward collectors *)

Definition naive_collect_backward_output (output_grad : ndarray A)
    (mp_group_idx mp_size : Z) : result (ndarray A) :=
  parts ← split1 output_grad mp_size;
  collected_output_grad ← getitem parts mp_group_idx;
  Ok collected_output_grad.

Definition naive_collect_backward_x (grad_x : ndarray A)
    (mp_comm : Comm (list A * nat)) (mp_size : Z) : result (ndarray A) :=
  let grad_x := ascontiguousarray grad_x in
  let '(batch_size, in_dim) := shape grad_x in
  part_in_dim ← floordiv (Z.of_nat in_dim) mp_size;
  let trans_grad_x := copy (transpose grad_x) in
  recv_buf ← empty (part_in_dim * Z.of_nat batch_size);
  recv_buf ← Reduce_scatter mp_comm (flatten trans_grad_x) recv_buf;
  reshaped ← reshape recv_buf part_in_dim batch_size;
  Ok (transpose reshaped).

(** What a member that runs [naive_collect_backward_x] on [grad_x] passes
    to the [Reduce_scatter] of that round: its send buffer and the length
    of its receive buffer. *)
Definition backward_x_buffers (grad_x : ndarray A) (mp_size : Z)
    : list A * nat :=
  let '(batch_size, in_dim) := shape grad_x in
  (flatten (transpose grad_x),
   Z.to_nat (Z.of_nat in_dim / mp_size * Z.of_nat batch_size)).

Definition megatron_collect_backward_output (output_grad : ndarray A)
    (mp_group_idx mp_size : Z) : ndarray A := output_grad.

Definition megatron_collect_backward_x {X} (grad_x : ndarray A)
    (mp_comm : Comm X) (mp_size : Z) : ndarray A := grad_x.

(** *** Gradient reducer

    Two rounds on one communicator: a member contributes its weight
    gradient to the first and its bias gradient to the second. *)
Definition collect_weight_grad (grad_w grad_b : ndarray A)
    (dp_comm : Comm (ndarray A * ndarray A))
    : result (ndarray A * ndarray A) :=
  let collected_grad_w := empty_like grad_w in
  let collected_grad_b := empty_like grad_b in
  collected_grad_w ← Allreduce (comm_map fst dp_comm) grad_w collected_grad_w;
  collected_grad_b ← Allreduce (comm_map snd dp_comm) grad_b collected_grad_b;
  Ok (collected_grad_w, collected_grad_b).
End collectives.

(** * Vocabulary of the properties *)

(** Which dimension the decision table splits. *)
Definition splits_out (is_fc1 is_megatron_mp : bool) : bool :=
  is_fc1 || negb is_megatron_mp.

(** ** Data shards *)

Section shards.
Context {A B : Type}.
Variables (x_train : ndarray A) (y_train : list B).
Variables (mp_size dp_size : Z).

(** The rows, and the labels, that [rank] receives. *)
Definition x_shard (rank : Z) : list (list A) :=
  match split_data x_train y_train mp_size dp_size rank with
  | Ok (split_x_train, _) => rows split_x_train
  | Raise _ => []
  end.

Definition y_shard (rank : Z) : list B :=
  match split_data x_train y_train mp_size dp_size rank with
  | Ok (_, split_y_train) => split_y_train
  | Raise _ => []
  end.

Definition chunk_of : nat := (nrows x_train `div` Z.to_nat dp_size)%nat.
End shards.

(** ** Arrays: positions, column blocks and element-wise sums *)

(** Every list of [ls] has length [b]. *)
Definition uniform {T} (b : nat) (ls : list (list T)) : Prop :=
  Forall (λ r, length r = b) ls.

Section tensor_vocabulary.
Context {A : Type} (add : A → A → A).
Implicit Types (a b : ndarray A) (sh : nat * nat).

(** The element at row [r] and column [c]. *)
Definition at2 a (r c : nat) : option A :=
  rows a !! r ≫= (λ row, row !! c).

(** Column block [p] of width [w]: the columns [p * w .. (p + 1) * w). *)
Definition col_block (w : nat) a (p : nat) : ndarray A :=
  NDArray w ((λ row, take w (drop (p * w) row)) <$> rows a).

(** Addition without rounding is associative and commutative; that of
    float64 is not associative. *)
Definition exact : Prop :=
  (∀ x y z, add x (add y z) = add (add x y) z) ∧ (∀ x y, add x y = add y x).

(** The sum of the members' values in rank order,
    [((v0 + v1) + v2) + ...]. *)
Definition rank_sum (vals : list A) : option A :=
  match vals with
  | [] => None
  | v :: vs => Some (foldl add v vs)
  end.

(** The sum of the members' elements at row [r] and column [c], combined
    in the order [t]. *)
Definition sum_at (ts : list (ndarray A)) (r c : nat) (t : schedule)
    : option A :=
  combine add (omap (λ a, at2 a r c) ts) t.

(** The element-wise sum of two arrays, and of the arrays of a group in
    rank order. *)
Definition add_nd a b : ndarray A :=
  NDArray (ncols a) (zip_with (zip_with add) (rows a) (rows b)).

Definition tensor_sum (ts : list (ndarray A)) : option (ndarray A) :=
  match ts with
  | [] => None
  | t :: ts => Some (foldl add_nd t ts)
  end.

Definition has_shape sh a : Prop := wf a ∧ shape a = sh.

(** [s] is an element-wise sum of the arrays [ts] of shape [(n, m)]: it
    has that shape, and its element at row [r] and column [c] is the sum
    of the members' elements at that row and column, each member taken
    once, combined in the order [order r c]. *)
Definition sum_of (ts : list (ndarray A)) (n m : nat)
    (order : nat → nat → schedule) (s : ndarray A) : Prop :=
  has_shape (n, m) s
  ∧ ∀ r c : nat, (r < n)%nat → (c < m)%nat →
      covers (order r c) (length ts)
      ∧ ∃ v, at2 s r c = Some v ∧ sum_at ts r c (order r c) = Some v.
End tensor_vocabulary.

(** ** The claims that fail, as read on the model *)

(** The reading of C5 on the model: whenever a dimension leaves a
    remainder, the call raises. *)
Definition divisibility_enforced : Prop :=
  ∀ impl comm rank mp_size dp_size is_fc1 is_megatron_mp in_dim out_dim,
    in_dim mod mp_size ≠ 0 ∨ out_dim mod mp_size ≠ 0 →
    raises (get_info impl comm rank mp_size dp_size is_fc1 is_megatron_mp
              in_dim out_dim).

(** The reading of C10 on the model: outside the grid the call returns a
    shard that is empty or shorter than a chunk. *)
Definition degrades_outside_grid : Prop :=
  ∀ (x : ndarray Z) (y : list Z) mp_size dp_size rank,
    1 ≤ mp_size → 1 ≤ dp_size → dp_size ≤ rank / mp_size →
    ∃ xs ys,
      split_data x y mp_size dp_size rank = Ok (xs, ys)
      ∧ (rows xs = []
         ∨ (nrows xs < nrows x `div` Z.to_nat dp_size)%nat).

(** The reading of C6 on the model: a local tensor whose width is not the
    one the shard planner computed makes the naive forward collectors
    raise. *)
Definition layout_mismatch_detected : Prop :=
  ∀ impl comm rank mp_size dp_size is_fc1 is_megatron_mp in_dim out_dim i
    (x out : ndarray Z) (mp_comm : Comm (ndarray Z)),
    get_info impl comm rank mp_size dp_size is_fc1 is_megatron_mp
      in_dim out_dim = Ok i →
    (Z.of_nat (ncols x) ≠ part_in_dim i →
     raises (naive_collect_forward_input x mp_comm mp_size))
    ∧ (Z.of_nat (ncols out) ≠ part_out_dim i →
       raises (naive_collect_forward_output out mp_comm mp_size)).

(** ** An addition that rounds *)

(** The addition of float64 on integers, for sums below [2^54] in
    magnitude: exact up to [2^53], and beyond rounded to the nearest
    multiple of 2, a tie going to the multiple of 4. *)
Definition round_add (x y : Z) : Z :=
  let s := x + y in
  if decide (Z.abs s ≤ 2 ^ 53) then s
  else if decide (s mod 2 = 0) then s
  else if decide ((s + 1) mod 4 = 0) then s + 1
  else s - 1.

(** * Examples *)

Example get_info_3 :
  get_info pairwise_mpi (view 3 (seqZ 0 6)) 3 2 3 false true 8 4
  = Ok (Info 1 1 [2; 3] [1; 3; 5] 4 4).
Proof. vm_compute. reflexivity. Qed.

Example split_data_3 :
  split_data (NDArray 1 [[10]; [11]; [12]; [13]; [14]; [15]; [16]])
             [0; 1; 2; 3; 4; 5; 6] 2 3 3
  = Ok (NDArray 1 [[12]; [13]], [2; 3]).
Proof. vm_compute. reflexivity. Qed.

Example naive_forward_2 :
  naive_collect_forward_output (NDArray 1 [[2]; [4]])
    (view 1 [NDArray 1 [[1]; [3]]; NDArray 1 [[2]; [4]]]) 2
  = Ok (NDArray 2 [[1; 2]; [3; 4]]).
Proof. vm_compute. reflexivity. Qed.

Example naive_backward_output_2 :
  naive_collect_backward_output (NDArray 4 [[1; 2; 3; 4]; [5; 6; 7; 8]]) 1 2
  = Ok (NDArray 2 [[3; 4]; [7; 8]]).
Proof. vm_compute. reflexivity. Qed.

Example naive_backward_x_2 :
  let g0 := NDArray 4 [[1; 2; 3; 4]; [5; 6; 7; 8]] in
  let g1 := NDArray 4 [[10; 20; 30; 40]; [50; 60; 70; 80]] in
  let sends := (λ g, backward_x_buffers g 2) <$> [g0; g1] in
  naive_collect_backward_x Z.add pairwise_mpi g1 (view 1 sends) 2
  = Ok (NDArray 2 [[33; 44]; [77; 88]]).
Proof. vm_compute. reflexivity. Qed.

Example megatron_forward_output_2 :
  let o0 := NDArray 2 [[1; 2]; [3; 4]] in
  let o1 := NDArray 2 [[10; 20]; [30; 40]] in
  megatron_collect_forward_output Z.add pairwise_mpi o0 (view 0 [o0; o1]) 2
  = Ok (NDArray 2 [[11; 22]; [33; 44]]).
Proof. vm_compute. reflexivity. Qed.

(** The caller is a member of its group whatever the others pass; a
    colour or key that is no C [int] overflows; the colour
    [MPI_UNDEFINED] gives the null communicator. *)
Example Split_alone : Split pairwise_mpi (Group [] []) 2 5 = Ok [5].
Proof. vm_compute. reflexivity. Qed.

Example Split_by_key :
  Split pairwise_mpi (Group [(0, 7); (1, 3)] [(0, 1)]) 0 4 = Ok [1; 4; 7].
Proof. vm_compute. reflexivity. Qed.

Example Split_overflow :
  Split pairwise_mpi (Group [] []) 0 (2 ^ 31) = Raise OverflowError.
Proof. vm_compute. reflexivity. Qed.

Example Split_undefined :
  Split pairwise_mpi (Group [(0, 0)] []) (-32766) 1 = Ok [].
Proof. vm_compute. reflexivity. Qed.

Example get_info_negative_mp_size :
  get_info pairwise_mpi (view 3 (seqZ 0 4)) 3 (-2) 1 true false 4 4
  = Ok (Info (-1) (-2) [3] [1; 3] 4 (-2)).
Proof. vm_compute. reflexivity. Qed.

(** With an addition that rounds, the order of the reduction shows: four
    members that hold [2^53], [1], [1] and [1] receive [2^53 + 2] from an
    [Allreduce] that adds pairwise, where the sum in rank order is
    [2^53]; and the reduce-scatter of the naive strategy, which here adds
    in rank order, does not return what the all-reduce followed by the
    local split returns. *)
Example Allreduce_order_shows :
  let v x := NDArray 1 [[x]] in
  let outs := v <$> [2 ^ 53; 1; 1; 1] in
  megatron_collect_forward_output round_add pairwise_mpi (v 1)
    (view 1 outs) 4 = Ok (v (2 ^ 53 + 2))
  ∧ tensor_sum round_add outs = Some (v (2 ^ 53)).
Proof. vm_compute. split; reflexivity. Qed.

Example Reduce_scatter_order_shows :
  let v x := NDArray 4 [[x; 0; 0; 0]] in
  let Gs := v <$> [2 ^ 53; 1; 1; 1] in
  let sends := (λ G, backward_x_buffers G 4) <$> Gs in
  naive_collect_backward_x round_add pairwise_mpi (v (2 ^ 53))
    (view 0 sends) 4 = Ok (NDArray 1 [[2 ^ 53]])
  ∧ (s ← megatron_collect_forward_output round_add pairwise_mpi
           (v (2 ^ 53)) (view 0 Gs) 4;
     naive_collect_backward_output s 0 4) = Ok (NDArray 1 [[2 ^ 53 + 2]]).
Proof. vm_compute. split; reflexivity. Qed.

(** * Properties *)

(** ** The error monad *)

Lemma floordiv_Ok a b : b ≠ 0 → floordiv a b = Ok (a / b).
Proof. intros Hb. unfold floordiv. by rewrite decide_False. Qed.

Lemma pymod_Ok a b : b ≠ 0 → pymod a b = Ok (a mod b).
Proof. intros Hb. unfold pymod. by rewrite decide_False. Qed.

(** ** Slices *)

(** A slice with non-negative bounds is a [take] of a [drop]; the clipping
    to the length is the one [take] and [drop] do. *)
Lemma getslice_nonneg {T} (l : list T) (a n : nat) :
  getslice l (Z.of_nat a) (Z.of_nat a + Z.of_nat n) = take n (drop a l).
Proof.
  unfold getslice, adjust_index.
  rewrite !decide_False by lia.
  destruct (decide (a ≤ length l)%nat) as [Hle|Hgt].
  - replace (Z.to_nat (Z.of_nat a `min` Z.of_nat (length l))) with a by lia.
    destruct (decide (a + n ≤ length l)%nat).
    + f_equal. lia.
    + rewrite !take_ge; [done | rewrite length_drop; lia..].
  - rewrite !drop_ge by lia. by rewrite !take_nil.
Qed.

(** ** The communicator, seen from one rank *)

Lemma round_view {X} (i : nat) (sends : list X) x :
  sends !! i = Some x → round (view i sends) x = sends.
Proof. apply take_drop_middle. Qed.

Lemma Get_rank_view {X} (i : nat) (sends : list X) x :
  sends !! i = Some x → Get_rank (view i sends) = i.
Proof.
  intros Hx. apply lookup_lt_Some in Hx.
  unfold Get_rank, view. cbn. rewrite length_take. lia.
Qed.

Lemma comm_map_view {X Y} (f : X → Y) (i : nat) (sends : list X) :
  comm_map f (view i sends) = view i (f <$> sends).
Proof. unfold comm_map, view. cbn. by rewrite fmap_take, fmap_drop. Qed.

Lemma round_comm_map {X Y} (f : X → Y) (comm : Comm X) x :
  round (comm_map f comm) (f x) = f <$> round comm x.
Proof. unfold round, comm_map. cbn. by rewrite fmap_app. Qed.

Lemma length_round {X} (comm : Comm X) x :
  length (round comm x) = S (length (lower comm) + length (upper comm)).
Proof. unfold round. rewrite length_app. cbn. lia. Qed.

Lemma lookup_round_rank {X} (comm : Comm X) x :
  round comm x !! Get_rank comm = Some x.
Proof. unfold round, Get_rank. by rewrite list_lookup_middle. Qed.

(** ** Rank grid and shard planner *)

(** The members that passed the colour [c], by their keys, when the member
    of key [r] passes the colour [g r]. *)
Lemma filter_coloured (g : Z → Z) (c : Z) (l : list Z) :
  snd <$> filter (λ m : Z * Z, m.1 = c) ((λ r, (g r, r)) <$> l)
  = filter (λ r, g r = c) l.
Proof.
  induction l as [|r l IH]; [done|]. cbn [fmap list_fmap].
  rewrite !filter_cons. cbn [fst].
  destruct (decide (g r = c)); cbn [fmap list_fmap snd]; by rewrite IH.
Qed.

Lemma Split_Ok impl (comm : Comm (Z * Z)) color key :
  0 ≤ color ≤ INT_MAX → 0 ≤ key ≤ INT_MAX →
  Split impl comm color key
  = Ok (merge_sort Z.le
          (snd <$> filter (λ m, m.1 = color) (round comm (color, key)))).
Proof.
  intros Hc Hk. unfold Split.
  rewrite decide_True by (unfold fits_int, INT_MAX in *; lia).
  rewrite decide_False by (unfold MPI_UNDEFINED; lia).
  rewrite decide_False by lia. done.
Qed.

Section get_info_props.
Variables (impl : MPI) (comm : Comm Z) (rank mp_size dp_size : Z).
Variables (is_fc1 is_megatron_mp : bool) (in_dim out_dim : Z).

Lemma get_info_returns :
  0 < mp_size → 0 ≤ rank ≤ INT_MAX →
  get_info impl comm rank mp_size dp_size is_fc1 is_megatron_mp
    in_dim out_dim
  = Ok (Info (rank mod mp_size) (rank / mp_size)
          (merge_sort Z.le
             (filter (λ r, r / mp_size = rank / mp_size) (round comm rank)))
          (merge_sort Z.le
             (filter (λ r, r mod mp_size = rank mod mp_size)
                (round comm rank)))
          (if splits_out is_fc1 is_megatron_mp
           then in_dim else in_dim / mp_size)
          (if splits_out is_fc1 is_megatron_mp
           then out_dim / mp_size else out_dim)).
Proof.
  intros Hmp Hr. unfold get_info.
  rewrite pymod_Ok, !floordiv_Ok by lia. cbn [mbind result_bind].
  pose proof (Z.div_pos rank mp_size).
  pose proof (Z.mod_pos_bound rank mp_size).
  assert (rank / mp_size ≤ rank) by (apply Z.div_le_upper_bound; nia).
  assert (rank mod mp_size ≤ rank) by (apply Z.mod_le; lia).
  rewrite !Split_Ok by lia. cbn [mbind result_bind].
  rewrite (round_comm_map (λ r, (r / mp_size, r))).
  rewrite (round_comm_map (λ r, (r mod mp_size, r))).
  rewrite (filter_coloured (λ r, r / mp_size)).
  rewrite (filter_coloured (λ r, r mod mp_size)).
  destruct is_fc1, is_megatron_mp; reflexivity.
Qed.

(** A rank that is no C [int] cannot be the key of a split. *)
Lemma get_info_overflow :
  mp_size ≠ 0 → INT_MAX < rank →
  get_info impl comm rank mp_size dp_size is_fc1 is_megatron_mp
    in_dim out_dim
  = Raise OverflowError.
Proof.
  intros Hmp Hr. unfold get_info, Split.
  rewrite pymod_Ok, !floordiv_Ok by lia. cbn [mbind result_bind].
  rewrite (decide_False (P := fits_int (rank / mp_size) ∧ fits_int rank));
    [reflexivity|].
  unfold fits_int. lia.
Qed.

Lemma get_info_Ok_fits i :
  0 < mp_size → 0 ≤ rank →
  get_info impl comm rank mp_size dp_size is_fc1 is_megatron_mp
    in_dim out_dim = Ok i →
  rank ≤ INT_MAX.
Proof.
  intros Hmp Hr Hi. destruct (decide (rank ≤ INT_MAX)); [done|].
  rewrite get_info_overflow in Hi by lia. discriminate.
Qed.
End get_info_props.

(** *** The groups of the grid *)

Section filters.
Context {T : Type} (P : T → Prop) `{!∀ x, Decision (P x)}.

Lemma filter_all (l : list T) : Forall P l → filter P l = l.
Proof.
  induction 1 as [|x l Hx _ IH]; [done|].
  by rewrite filter_cons_True, IH.
Qed.

Lemma filter_none (l : list T) : Forall (λ x, ¬ P x) l → filter P l = [].
Proof.
  induction 1 as [|x l Hx _ IH]; [done|].
  by rewrite filter_cons_False.
Qed.
End filters.

Lemma StronglySorted_seqZ m n : StronglySorted Z.le (seqZ m n).
Proof.
  remember (Z.to_nat n) as k eqn:Hk. revert m n Hk.
  induction k as [|k IH]; intros m n Hk.
  - unfold seqZ. rewrite <- Hk. constructor.
  - rewrite seqZ_cons by lia. constructor.
    + apply IH. lia.
    + apply Forall_seqZ. lia.
Qed.

Lemma filter_block mp_size dp_size d :
  0 < mp_size → 0 ≤ d < dp_size →
  filter (λ r, r / mp_size = d) (seqZ 0 (mp_size * dp_size))
  = seqZ (d * mp_size) mp_size.
Proof.
  intros Hmp Hd.
  replace (mp_size * dp_size)
    with (d * mp_size + (mp_size + (dp_size - d - 1) * mp_size)) by lia.
  rewrite !seqZ_app by nia. rewrite !filter_app.
  rewrite filter_none, filter_all, filter_none.
  - by rewrite app_nil_r.
  - apply Forall_seqZ. intros r Hr.
    assert (d + 1 ≤ r / mp_size) by (apply Z.div_le_lower_bound; lia). lia.
  - apply Forall_seqZ. intros r Hr. symmetry.
    apply Z.div_unique_pos with (r - d * mp_size); lia.
  - apply Forall_seqZ. intros r Hr.
    assert (r / mp_size < d) by (apply Z.div_lt_upper_bound; lia). lia.
Qed.

Lemma StronglySorted_filter {T} (R : relation T) (P : T → Prop)
    `{!∀ x, Decision (P x)} (l : list T) :
  StronglySorted R l → StronglySorted R (filter P l).
Proof.
  induction 1 as [|x l _ IH Hx]; [constructor|].
  rewrite filter_cons. case_decide; [|done]. constructor; [done|].
  apply Forall_forall. intros y Hy. apply list_elem_of_filter in Hy as [_ Hy].
  by apply (proj1 (Forall_forall _ _) Hx).
Qed.

Lemma merge_sort_filter_seqZ (P : Z → Prop) `{!∀ x, Decision (P x)} m n :
  merge_sort Z.le (filter P (seqZ m n)) = filter P (seqZ m n).
Proof.
  apply (StronglySorted_unique Z.le).
  - apply StronglySorted_merge_sort; apply _.
  - apply StronglySorted_filter, StronglySorted_seqZ.
  - apply merge_sort_Permutation.
Qed.

Lemma filter_residue_block mp_size m d :
  0 ≤ m < mp_size →
  filter (λ r, r mod mp_size = m) (seqZ (d * mp_size) mp_size)
  = [d * mp_size + m].
Proof.
  intros Hm.
  transitivity (filter (λ r, r mod mp_size = m)
                  (seqZ (d * mp_size) (m + (1 + (mp_size - m - 1)))));
    [do 2 f_equal; lia|].
  rewrite !seqZ_app by lia. rewrite !filter_app.
  rewrite filter_none, (filter_all _ (seqZ _ 1)), filter_none.
  - rewrite seqZ_cons by lia. done.
  - apply Forall_seqZ. intros r Hr.
    rewrite <- (Z.mod_unique_pos r mp_size d (r - d * mp_size)); lia.
  - apply Forall_seqZ. intros r Hr.
    rewrite <- (Z.mod_unique_pos r mp_size d (r - d * mp_size)); lia.
  - apply Forall_seqZ. intros r Hr.
    rewrite <- (Z.mod_unique_pos r mp_size d (r - d * mp_size)); lia.
Qed.

Lemma filter_residue mp_size m (k : nat) :
  0 ≤ m < mp_size →
  filter (λ r, r mod mp_size = m) (seqZ 0 (mp_size * Z.of_nat k))
  = (λ d, d * mp_size + m) <$> seqZ 0 (Z.of_nat k).
Proof.
  intros Hm. induction k as [|k IH]; [by rewrite Z.mul_0_r|].
  replace (mp_size * Z.of_nat (S k))
    with (mp_size * Z.of_nat k + mp_size) by lia.
  replace (Z.of_nat (S k)) with (Z.of_nat k + 1) by lia.
  rewrite !seqZ_app by nia. rewrite filter_app, fmap_app, IH. f_equal.
  replace (0 + mp_size * Z.of_nat k) with (Z.of_nat k * mp_size) by lia.
  rewrite filter_residue_block by done. by rewrite seqZ_cons by lia.
Qed.

Lemma filter_residue_grid mp_size dp_size m :
  0 ≤ m < mp_size → 0 ≤ dp_size →
  filter (λ r, r mod mp_size = m) (seqZ 0 (mp_size * dp_size))
  = (λ d, d * mp_size + m) <$> seqZ 0 dp_size.
Proof.
  intros Hm Hdp. rewrite <- (Z2Nat.id dp_size) by done.
  by apply filter_residue.
Qed.

(** The world communicator of a grid, seen from one of its ranks. *)
Lemma round_world (n rank : Z) :
  0 ≤ rank < n →
  round (view (Z.to_nat rank) (seqZ 0 n)) rank = seqZ 0 n.
Proof.
  intros Hr. apply round_view. rewrite lookup_seqZ_lt by lia. f_equal. lia.
Qed.

(** X5. On the world communicator of a [dp_size] by [mp_size] grid the
    model-parallel group of a rank is its row of the grid in ascending rank
    order, in which the rank sits at position [mp_idx]; the data-parallel
    group is its column, in which it sits at position [dp_idx].  (A rank
    that is no C [int] cannot be passed to [Split]: the call is an
    [OverflowError].) *)
Theorem grid_communicators impl mp_size dp_size rank
    is_fc1 is_megatron_mp in_dim out_dim :
  1 ≤ mp_size → 1 ≤ dp_size → 0 ≤ rank < mp_size * dp_size →
  let world := view (Z.to_nat rank) (seqZ 0 (mp_size * dp_size)) in
  (rank ≤ INT_MAX →
   ∃ i,
     get_info impl world rank mp_size dp_size
       is_fc1 is_megatron_mp in_dim out_dim = Ok i
     ∧ mp_comm i = seqZ (dp_idx i * mp_size) mp_size
     ∧ mp_comm i !! Z.to_nat (mp_idx i) = Some rank
     ∧ dp_comm i = (λ d, d * mp_size + mp_idx i) <$> seqZ 0 dp_size
     ∧ dp_comm i !! Z.to_nat (dp_idx i) = Some rank)
  ∧ (INT_MAX < rank →
     get_info impl world rank mp_size dp_size
       is_fc1 is_megatron_mp in_dim out_dim = Raise OverflowError).
Proof.
  intros Hmp Hdp Hr world. split; [|intros; apply get_info_overflow; lia].
  intros Hfit. subst world.
  rewrite get_info_returns by lia. eexists. split; [reflexivity|].
  cbn [mp_comm dp_comm mp_idx dp_idx].
  pose proof (Z.mod_pos_bound rank mp_size).
  pose proof (Z.div_mod rank mp_size).
  assert (0 ≤ rank / mp_size) by (apply Z.div_pos; lia).
  assert (rank / mp_size < dp_size) by (apply Z.div_lt_upper_bound; lia).
  rewrite round_world by lia.
  rewrite !merge_sort_filter_seqZ.
  rewrite filter_block by lia.
  rewrite filter_residue_grid by lia.
  repeat split.
  - rewrite lookup_seqZ_lt by lia. f_equal. lia.
  - rewrite list_lookup_fmap, lookup_seqZ_lt by lia. cbn. f_equal. lia.
Qed.

(** C4. Shard planner decision table.  On a grid ([mp_size >= 1], a rank
    that is not negative) and for dimensions that [mp_size] divides,
    [get_info] returns; the pair [(part_in_dim, part_out_dim)] is
    [(in_dim, out_dim / mp_size)] for the first layer whatever the
    strategy, [(in_dim / mp_size, out_dim)] for the second layer under
    Megatron and [(in_dim, out_dim / mp_size)] for the second layer under
    the naive strategy; the split dimension times [mp_size] gives back the
    full dimension and the other one is the full dimension.  (The rank is
    the key of the two splits: one that is no C [int] is an
    [OverflowError] there, before the table is reached.) *)
Theorem get_info_decision_table impl comm rank mp_size dp_size
    is_fc1 is_megatron_mp in_dim out_dim :
  0 < mp_size → 0 ≤ rank →
  in_dim mod mp_size = 0 → out_dim mod mp_size = 0 →
  (rank ≤ INT_MAX →
   ∃ i,
     get_info impl comm rank mp_size dp_size is_fc1 is_megatron_mp
       in_dim out_dim = Ok i
     ∧ (part_in_dim i, part_out_dim i)
       = (if is_fc1 then (in_dim, out_dim / mp_size)
          else if is_megatron_mp then (in_dim / mp_size, out_dim)
          else (in_dim, out_dim / mp_size))
     ∧ (if is_fc1 || negb is_megatron_mp
        then part_in_dim i = in_dim ∧ part_out_dim i * mp_size = out_dim
        else part_in_dim i * mp_size = in_dim ∧ part_out_dim i = out_dim))
  ∧ (INT_MAX < rank →
     get_info impl comm rank mp_size dp_size is_fc1 is_megatron_mp
       in_dim out_dim = Raise OverflowError).
Proof.
  intros Hmp Hr Hin Hout. split; [|intros; apply get_info_overflow; lia].
  intros Hfit.
  rewrite (get_info_returns impl comm rank mp_size dp_size
             is_fc1 is_megatron_mp in_dim out_dim Hmp (conj Hr Hfit)).
  eexists. split; [reflexivity|].
  assert (in_dim / mp_size * mp_size = in_dim) as Ein
    by (rewrite (Z.div_mod in_dim mp_size) at 2 by lia; lia).
  assert (out_dim / mp_size * mp_size = out_dim) as Eout
    by (rewrite (Z.div_mod out_dim mp_size) at 2 by lia; lia).
  destruct is_fc1, is_megatron_mp; cbn; auto.
Qed.

Lemma get_info_decision_table_witness :
  ∃ i, get_info pairwise_mpi (view 3 (seqZ 0 4)) 3 2 2 false true 8 6 = Ok i
       ∧ (part_in_dim i, part_out_dim i) = (4, 6)
       ∧ part_in_dim i * 2 = 8 ∧ part_out_dim i = 6.
Proof.
  destruct (get_info_decision_table pairwise_mpi (view 3 (seqZ 0 4))
              3 2 2 false true 8 6)
    as [Hret _]; [lia | lia | reflexivity | reflexivity |].
  destruct Hret as (i & Hi & Hp & Hs); [unfold INT_MAX; lia|].
  exists i. cbn in Hp, Hs. auto.
Defined.

(** C5, as stated, fails: with [in_dim = 5], [out_dim = 3] and
    [mp_size = 2] the first layer gets [(5, 1)] and no error. *)
Lemma get_info_truncates_silently : ¬ divisibility_enforced.
Proof.
  intros H.
  destruct (H pairwise_mpi (view 0 (seqZ 0 2)) 0 2 1 true false 5 3)
    as [e He]; [by left|].
  vm_compute in He. discriminate.
Qed.

(** C5, amended.  [get_info] has no divisibility check: for
    [mp_size >= 1] and a rank [0 <= rank < 2^31] it returns whatever the
    dimensions are, the split dimension being the floor quotient, so that
    [part * mp_size = full - full mod mp_size]; the unsplit dimension is
    the full one.  With [mp_size = 0] the call raises
    [ZeroDivisionError], for every rank. *)
Theorem get_info_floor_division impl comm rank mp_size dp_size
    is_fc1 is_megatron_mp in_dim out_dim :
  (0 < mp_size → 0 ≤ rank ≤ INT_MAX →
   ∃ i,
     get_info impl comm rank mp_size dp_size is_fc1 is_megatron_mp
       in_dim out_dim = Ok i
     ∧ (if is_fc1 || negb is_megatron_mp
        then part_in_dim i = in_dim
             ∧ part_out_dim i = out_dim / mp_size
             ∧ part_out_dim i * mp_size = out_dim - out_dim mod mp_size
        else part_in_dim i = in_dim / mp_size
             ∧ part_in_dim i * mp_size = in_dim - in_dim mod mp_size
             ∧ part_out_dim i = out_dim))
  ∧ get_info impl comm rank 0 dp_size is_fc1 is_megatron_mp in_dim out_dim
    = Raise ZeroDivisionError.
Proof.
  split; [|reflexivity]. intros Hmp Hr.
  rewrite (get_info_returns impl comm rank mp_size dp_size
             is_fc1 is_megatron_mp in_dim out_dim Hmp Hr).
  eexists. split; [reflexivity|].
  pose proof (Z.div_mod in_dim mp_size).
  pose proof (Z.div_mod out_dim mp_size).
  destruct is_fc1, is_megatron_mp; cbn; repeat split; lia.
Qed.

Lemma get_info_floor_division_witness :
  ∃ i, get_info pairwise_mpi (view 0 (seqZ 0 2)) 0 2 1 true false 5 3 = Ok i
       ∧ part_in_dim i = 5 ∧ part_out_dim i = 1.
Proof.
  destruct (get_info_floor_division pairwise_mpi (view 0 (seqZ 0 2))
              0 2 1 true false 5 3) as [Hret _].
  destruct Hret as (i & Hi & Hp); [lia | unfold INT_MAX; lia |].
  exists i. cbn in Hp. destruct Hp as (? & ? & _). auto.
Defined.

(** C9. Rank-grid round trip.  For [mp_size, dp_size >= 1] and a rank [r]
    of the grid, [get_info] returns [mp_idx = r mod mp_size] and
    [dp_idx = r div mp_size]; both lie in their ranges,
    [dp_idx * mp_size + mp_idx] is [r], and two ranks of the grid with the
    same pair of indices are the same rank.  (A rank of the grid that is
    no C [int] is an [OverflowError] at the splits.) *)
Theorem rank_grid_round_trip impl comm mp_size dp_size
    is_fc1 is_megatron_mp in_dim out_dim :
  1 ≤ mp_size → 1 ≤ dp_size →
  (∀ r, 0 ≤ r < mp_size * dp_size →
     (r ≤ INT_MAX →
      ∃ i,
        get_info impl comm r mp_size dp_size is_fc1 is_megatron_mp
          in_dim out_dim = Ok i
        ∧ mp_idx i = r mod mp_size ∧ dp_idx i = r / mp_size
        ∧ 0 ≤ mp_idx i < mp_size ∧ 0 ≤ dp_idx i < dp_size
        ∧ dp_idx i * mp_size + mp_idx i = r)
     ∧ (INT_MAX < r →
        get_info impl comm r mp_size dp_size is_fc1 is_megatron_mp
          in_dim out_dim = Raise OverflowError))
  ∧ (∀ r1 r2 i1 i2,
       0 ≤ r1 < mp_size * dp_size → 0 ≤ r2 < mp_size * dp_size →
       get_info impl comm r1 mp_size dp_size is_fc1 is_megatron_mp
         in_dim out_dim = Ok i1 →
       get_info impl comm r2 mp_size dp_size is_fc1 is_megatron_mp
         in_dim out_dim = Ok i2 →
       (mp_idx i1, dp_idx i1) = (mp_idx i2, dp_idx i2) → r1 = r2).
Proof.
  intros Hmp Hdp. split.
  - intros r Hr. split; [|intros; apply get_info_overflow; lia].
    intros Hfit.
    rewrite (get_info_returns impl comm r mp_size dp_size
               is_fc1 is_megatron_mp in_dim out_dim) by lia.
    eexists. split; [reflexivity|]. cbn.
    pose proof (Z.mod_pos_bound r mp_size).
    pose proof (Z.div_mod r mp_size).
    assert (r / mp_size < dp_size) by (apply Z.div_lt_upper_bound; lia).
    assert (0 ≤ r / mp_size) by (apply Z.div_pos; lia).
    repeat split; lia.
  - intros r1 r2 i1 i2 Hr1 Hr2 H1 H2 Heq.
    assert (r1 ≤ INT_MAX) by (eapply get_info_Ok_fits, H1; lia).
    assert (r2 ≤ INT_MAX) by (eapply get_info_Ok_fits, H2; lia).
    rewrite (get_info_returns impl comm r1 mp_size dp_size
               is_fc1 is_megatron_mp in_dim out_dim) in H1 by lia.
    rewrite (get_info_returns impl comm r2 mp_size dp_size
               is_fc1 is_megatron_mp in_dim out_dim) in H2 by lia.
    injection H1 as <-. injection H2 as <-. cbn in Heq.
    injection Heq as Hm Hd.
    rewrite (Z.div_mod r1 mp_size), (Z.div_mod r2 mp_size) by lia.
    by rewrite Hm, Hd.
Qed.

Lemma rank_grid_round_trip_witness :
  ∃ i, get_info pairwise_mpi (view 5 (seqZ 0 6)) 5 2 3 true false 4 2 = Ok i
       ∧ mp_idx i = 1 ∧ dp_idx i = 2 ∧ dp_idx i * 2 + mp_idx i = 5.
Proof.
  destruct (rank_grid_round_trip pairwise_mpi (view 5 (seqZ 0 6))
              2 3 true false 4 2)
    as [Hrt _]; [lia | lia |].
  destruct (Hrt 5) as [Hret _]; [lia|].
  destruct Hret as (i & Hi & Hm & Hd & _ & _ & Hr); [unfold INT_MAX; lia|].
  exists i. auto.
Defined.

(** ** Data shards *)

Lemma concat_chunks {T} (l : list T) (chunk n : nat) :
  concat ((λ d, take chunk (drop (d * chunk) l)) <$> seq 0 n)
  = take (n * chunk) l.
Proof.
  induction n as [|n IH]; [by rewrite take_0|].
  rewrite seq_S, fmap_app, concat_app, IH. cbn [fmap list_fmap concat].
  rewrite app_nil_r, take_take_drop. f_equal. lia.
Qed.

Section split_data_props.
Context {A B : Type}.
Variables (x_train : ndarray A) (y_train : list B).
Variables (mp_size dp_size : Z).

Lemma split_data_returns rank :
  1 ≤ mp_size → 1 ≤ dp_size → 0 ≤ rank →
  let chunk := chunk_of x_train dp_size in
  let start := (Z.to_nat (rank / mp_size) * chunk)%nat in
  split_data x_train y_train mp_size dp_size rank
  = Ok (NDArray (ncols x_train) (take chunk (drop start (rows x_train))),
        take chunk (drop start y_train)).
Proof.
  intros Hmp Hdp Hr chunk start. unfold split_data.
  rewrite !floordiv_Ok by lia. cbn [mbind result_bind].
  assert (0 ≤ rank / mp_size) by (apply Z.div_pos; lia).
  assert (Z.of_nat (nrows x_train) / dp_size = Z.of_nat chunk) as ->.
  { unfold chunk, chunk_of. rewrite Nat2Z.inj_div, Z2Nat.id by lia. done. }
  assert (rank / mp_size * Z.of_nat chunk = Z.of_nat start) as ->
    by (unfold start; lia).
  unfold getslice0. by rewrite !getslice_nonneg.
Qed.

Lemma chunks_fit :
  (Z.to_nat dp_size * chunk_of x_train dp_size ≤ nrows x_train)%nat.
Proof. unfold chunk_of. apply Nat.Div0.mul_div_le. Qed.
End split_data_props.

(** C7. Data shards.  For [mp_size, dp_size >= 1] every rank of the grid
    receives the rows [dp_index * chunk .. (dp_index + 1) * chunk) of [x]
    and the labels at the same positions of [y], with
    [dp_index = rank // mp_size] and [chunk = data_num // dp_size]; an
    x-shard has exactly [chunk] rows, in the order of [x]; taken over
    [dp_index = 0 .. dp_size - 1] the shards concatenate to the first
    [dp_size * chunk] rows (labels), the row ranges of distinct data-parallel
    indices do not meet, and ranks with the same [dp_index] receive the same
    shard. *)
Theorem split_data_partition {A B} (x : ndarray A) (y : list B)
    (mp_size dp_size : Z) :
  1 ≤ mp_size → 1 ≤ dp_size →
  let chunk := (nrows x `div` Z.to_nat dp_size)%nat in
  (∀ rank, 0 ≤ rank < mp_size * dp_size →
     let dp_index := Z.to_nat (rank / mp_size) in
     split_data x y mp_size dp_size rank
     = Ok (NDArray (ncols x) (take chunk (drop (dp_index * chunk) (rows x))),
           take chunk (drop (dp_index * chunk) y))
     ∧ (dp_index < Z.to_nat dp_size)%nat
     ∧ length (x_shard x y mp_size dp_size rank) = chunk
     ∧ (∀ j, (j < chunk)%nat →
          x_shard x y mp_size dp_size rank !! j
          = rows x !! (dp_index * chunk + j)%nat))
  ∧ (∀ m, 0 ≤ m < mp_size →
       let rank_of (d : nat) := Z.of_nat d * mp_size + m in
       concat ((λ d, x_shard x y mp_size dp_size (rank_of d))
                 <$> seq 0 (Z.to_nat dp_size))
       = take (Z.to_nat dp_size * chunk) (rows x)
       ∧ concat ((λ d, y_shard x y mp_size dp_size (rank_of d))
                   <$> seq 0 (Z.to_nat dp_size))
         = take (Z.to_nat dp_size * chunk) y)
  ∧ (∀ d1 d2 j1 j2 : nat,
       d1 ≠ d2 → (j1 < chunk)%nat → (j2 < chunk)%nat →
       (d1 * chunk + j1 ≠ d2 * chunk + j2)%nat)
  ∧ (∀ r1 r2,
       0 ≤ r1 < mp_size * dp_size → 0 ≤ r2 < mp_size * dp_size →
       r1 / mp_size = r2 / mp_size →
       split_data x y mp_size dp_size r1 = split_data x y mp_size dp_size r2).
Proof.
  intros Hmp Hdp chunk.
  pose proof (chunks_fit x dp_size) as Hfit.
  unfold chunk_of, nrows in Hfit. fold (nrows x) chunk in Hfit.
  split; [|split; [|split]].
  - intros rank Hr dp_index.
    assert (0 ≤ rank / mp_size) by (apply Z.div_pos; lia).
    assert (rank / mp_size < dp_size) by (apply Z.div_lt_upper_bound; lia).
    assert (dp_index < Z.to_nat dp_size)%nat as Hd by (unfold dp_index; lia).
    unfold x_shard.
    rewrite (split_data_returns x y mp_size dp_size rank) by lia.
    unfold chunk_of. fold chunk dp_index. cbn [rows].
    assert ((dp_index + 1) * chunk ≤ Z.to_nat dp_size * chunk)%nat
      by (apply Nat.mul_le_mono_r; lia).
    repeat split; [done|..].
    + rewrite length_take, length_drop. unfold nrows in Hfit. lia.
    + intros j Hj. by rewrite lookup_take_lt, lookup_drop by done.
  - intros m Hm rank_of.
    assert (∀ d : nat, Z.to_nat (rank_of d / mp_size) = d) as Hq.
    { intros d. unfold rank_of.
      rewrite Z.div_add_l, (Z.div_small m) by lia. lia. }
    assert (∀ d : nat, 0 ≤ rank_of d) as Hpos by (unfold rank_of; nia).
    split.
    + rewrite <- concat_chunks. f_equal. apply list_fmap_ext.
      intros _ d _. unfold x_shard.
      rewrite (split_data_returns x y mp_size dp_size) by auto with lia.
      unfold chunk_of. cbn [rows]. by rewrite Hq.
    + rewrite <- concat_chunks. f_equal. apply list_fmap_ext.
      intros _ d _. unfold y_shard.
      rewrite (split_data_returns x y mp_size dp_size) by auto with lia.
      unfold chunk_of. by rewrite Hq.
  - intros d1 d2 j1 j2 Hne Hj1 Hj2. nia.
  - intros r1 r2 Hr1 Hr2 Heq.
    rewrite !(split_data_returns x y mp_size dp_size) by lia.
    by rewrite Heq.
Qed.

Lemma split_data_partition_witness :
  split_data (NDArray 1 [[10]; [11]; [12]; [13]; [14]; [15]; [16]])
             [0; 1; 2; 3; 4; 5; 6] 2 3 3
  = Ok (NDArray 1 [[12]; [13]], [2; 3]).
Proof.
  destruct (split_data_partition
              (NDArray 1 [[10]; [11]; [12]; [13]; [14]; [15]; [16]])
              [0; 1; 2; 3; 4; 5; 6] 2 3) as [Hs _]; [lia | lia |].
  destruct (Hs 3) as [Hs3 _]; [lia|]. exact Hs3.
Defined.

(** C10, as stated, fails: five rows over [dp_size = 3] give chunks of one
    row and leave two rows over; the rank with [dp_index = 3] receives row
    3, a whole chunk that lies within the data. *)
Lemma split_data_full_shard_outside_grid : ¬ degrades_outside_grid.
Proof.
  intros H.
  destruct (H (NDArray 1 [[10]; [11]; [12]; [13]; [14]]) [0; 1; 2; 3; 4] 1 3 3)
    as (xs & ys & Hs & Hshort); [lia | lia | by vm_compute |].
  vm_compute in Hs. injection Hs as <- <-.
  destruct Hshort as [Hnil|Hlt]; [discriminate|].
  vm_compute in Hlt. lia.
Qed.

(** C10, amended.  For [mp_size, dp_size >= 1] and a rank whose
    [rank // mp_size] is at least [dp_size], [split_data] raises nothing
    and returns the clipped slice that starts at
    [start = (rank // mp_size) * chunk >= dp_size * chunk]: its rows come
    from the remainder that no rank of the grid receives, so there are at
    most [min chunk (data_num mod dp_size)] of them, none when [dp_size]
    divides [data_num] or when [start] is past the data, and a whole chunk
    when [start + chunk <= data_num]. *)
Theorem split_data_outside_grid {A B} (x : ndarray A) (y : list B)
    (mp_size dp_size rank : Z) :
  1 ≤ mp_size → 1 ≤ dp_size → dp_size ≤ rank / mp_size →
  let chunk := (nrows x `div` Z.to_nat dp_size)%nat in
  let start := (Z.to_nat (rank / mp_size) * chunk)%nat in
  split_data x y mp_size dp_size rank
  = Ok (NDArray (ncols x) (take chunk (drop start (rows x))),
        take chunk (drop start y))
  ∧ (Z.to_nat dp_size * chunk ≤ start)%nat
  ∧ (length (x_shard x y mp_size dp_size rank)
     ≤ chunk `min` (nrows x `mod` Z.to_nat dp_size))%nat
  ∧ ((nrows x `mod` Z.to_nat dp_size = 0 ∨ nrows x ≤ start)%nat →
     x_shard x y mp_size dp_size rank = [])
  ∧ ((start + chunk ≤ nrows x)%nat →
     length (x_shard x y mp_size dp_size rank) = chunk).
Proof.
  intros Hmp Hdp Hout chunk start.
  assert (0 ≤ rank).
  { destruct (decide (0 ≤ rank)) as [|Hneg]; [done|].
    assert (rank / mp_size < 0) by (apply Z.div_lt_upper_bound; lia). lia. }
  assert (Z.to_nat dp_size * chunk ≤ start)%nat as Hstart
    by (apply Nat.mul_le_mono_r; lia).
  pose proof (Nat.div_mod_eq (nrows x) (Z.to_nat dp_size)) as Hdm.
  fold chunk in Hdm.
  unfold x_shard.
  rewrite (split_data_returns x y mp_size dp_size rank) by lia.
  unfold chunk_of. fold chunk start. cbn [rows]. repeat split; [done|..].
  - rewrite length_take, length_drop. unfold nrows in *. lia.
  - intros Hz. apply length_zero_iff_nil.
    rewrite length_take, length_drop. unfold nrows in *. lia.
  - intros Hfit. rewrite length_take, length_drop. unfold nrows in *. lia.
Qed.

Lemma split_data_outside_grid_witness :
  split_data (NDArray 1 [[10]; [11]; [12]; [13]; [14]]) [0; 1; 2; 3; 4] 1 3 3
  = Ok (NDArray 1 [[13]], [3]).
Proof.
  destruct (split_data_outside_grid
              (NDArray 1 [[10]; [11]; [12]; [13]; [14]]) [0; 1; 2; 3; 4] 1 3 3)
    as [Hs _]; [lia | lia | by vm_compute |].
  exact Hs.
Defined.

(** ** Lists of equally long chunks *)

Section chunks.
Context {T : Type}.
Implicit Types (l : list T) (ls : list (list T)).

Lemma length_concat_uniform b ls :
  uniform b ls → length (concat ls) = (length ls * b)%nat.
Proof.
  induction 1 as [|r ls Hr _ IH]; [done|].
  cbn. rewrite length_app, IH, Hr. done.
Qed.

Lemma drop_concat_uniform b ls p :
  uniform b ls → drop (p * b) (concat ls) = concat (drop p ls).
Proof.
  intros Hu. revert p. induction Hu as [|r ls Hr _ IH]; intros p.
  - cbn [concat]. by rewrite !drop_nil.
  - destruct p as [|p]; [reflexivity|].
    change (concat (r :: ls)) with (r ++ concat ls).
    change (drop (S p) (r :: ls)) with (drop p ls).
    replace (S p * b)%nat with (length r + p * b)%nat by lia.
    by rewrite drop_app_add.
Qed.

Lemma take_concat_uniform b ls q :
  uniform b ls → take (q * b) (concat ls) = concat (take q ls).
Proof.
  intros Hu. revert q. induction Hu as [|r ls Hr _ IH]; intros q.
  - cbn [concat]. by rewrite !take_nil.
  - destruct q as [|q]; [reflexivity|].
    change (concat (r :: ls)) with (r ++ concat ls).
    change (take (S q) (r :: ls)) with (r :: take q ls).
    replace (S q * b)%nat with (length r + q * b)%nat by lia.
    by rewrite take_app_add, IH.
Qed.

(** Cutting the concatenation of [b]-long chunks every [b] elements gives
    the chunks back. *)
Lemma chunks_concat b ls :
  uniform b ls →
  (λ i, take b (drop (i * b) (concat ls))) <$> seq 0 (length ls) = ls.
Proof.
  induction 1 as [|r ls Hr Hu IH]; [done|].
  change (concat (r :: ls)) with (r ++ concat ls).
  cbn [length seq fmap list_fmap]. f_equal.
  - change (take b (r ++ concat ls) = r). by rewrite take_app_length'.
  - rewrite <- fmap_S_seq, <- list_fmap_compose.
    rewrite <- IH at 2. apply list_fmap_ext. intros _ i _. cbn [compose].
    replace (S i * b)%nat with (length r + i * b)%nat by lia.
    by rewrite drop_app_add.
Qed.

Lemma sum_list_const {X} (c : nat) (xs : list X) :
  sum_list ((λ _, c) <$> xs) = (length xs * c)%nat.
Proof. induction xs as [|x xs IH]; [done|]. cbn. rewrite IH. lia. Qed.

Lemma fmap_lookup_seq (d : T) l :
  (λ i, default d (l !! i)) <$> seq 0 (length l) = l.
Proof.
  apply list_eq. intros i. rewrite list_lookup_fmap.
  destruct (decide (i < length l)%nat) as [Hi|Hi].
  - rewrite lookup_seq_lt by done. cbn.
    destruct (lookup_lt_is_Some_2 l i Hi) as [x Hx]. by rewrite Hx.
  - rewrite lookup_seq_ge, lookup_ge_None_2 by lia. done.
Qed.

(** Reading position [j] of every row, when every row has one. *)
Lemma omap_lookup_uniform b ls j r :
  uniform b ls → (j < b)%nat →
  omap (λ row : list T, row !! j) ls !! r = ls !! r ≫= (λ row, row !! j).
Proof.
  intros Hu Hj. revert r. induction Hu as [|row ls Hr _ IH]; intros r.
  - done.
  - cbn [omap list_omap].
    destruct (lookup_lt_is_Some_2 row j ltac:(lia)) as [x Hx].
    rewrite Hx. destruct r as [|r]; cbn; [by rewrite Hx | apply IH].
Qed.

Lemma length_omap_uniform b ls j :
  uniform b ls → (j < b)%nat →
  length (omap (λ row : list T, row !! j) ls) = length ls.
Proof.
  intros Hu Hj. induction Hu as [|row ls Hr _ IH]; [done|].
  cbn [omap list_omap].
  destruct (lookup_lt_is_Some_2 row j ltac:(lia)) as [x ->].
  cbn. by rewrite IH.
Qed.
End chunks.

(** ** Reduction orders *)

Lemma length_leaves t : (1 ≤ length (leaves t))%nat.
Proof. induction t; cbn; [lia | rewrite length_app; lia]. Qed.

Lemma covers_bound t n : covers t n → Forall (λ k, (k < n)%nat) (leaves t).
Proof.
  intros H. eapply Permutation_Forall; [symmetry; exact H|].
  apply Forall_seq. intros; lia.
Qed.

(** One member: there is nothing to order. *)
Lemma covers_one t : covers t 1 → t = Member 0.
Proof.
  unfold covers. cbn. intros H. apply Permutation_singleton_r in H.
  destruct t as [k|l r]; cbn in H.
  - by injection H as ->.
  - apply (f_equal length) in H. rewrite length_app in H. cbn in H.
    pose proof (length_leaves l). pose proof (length_leaves r). lia.
Qed.

Section lists.
Context {X Y : Type} (f : X → option Y).

Lemma length_omap_total (l : list X) :
  Forall (λ x, is_Some (f x)) l → length (omap f l) = length l.
Proof.
  induction 1 as [|x l [y Hy] _ IH]; [done|].
  cbn [omap list_omap]. rewrite Hy. cbn. by rewrite IH.
Qed.

Lemma lookup_omap_total (l : list X) (i : nat) :
  Forall (λ x, is_Some (f x)) l → omap f l !! i = l !! i ≫= f.
Proof.
  intros Hall. revert i. induction Hall as [|x l [y Hy] _ IH]; intros i.
  - done.
  - cbn [omap list_omap]. rewrite Hy.
    destruct i as [|i]; cbn; [by rewrite Hy | apply IH].
Qed.
End lists.

Lemma omap_lookup_seq {X} (vals : list X) :
  omap (λ k, vals !! k) (seq 0 (length vals)) = vals.
Proof.
  apply list_eq. intros i. rewrite lookup_omap_total.
  - destruct (decide (i < length vals)%nat) as [Hi|Hi].
    + by rewrite lookup_seq_lt.
    + rewrite lookup_seq_ge by lia. symmetry. apply lookup_ge_None. lia.
  - apply Forall_seq. intros k Hk. apply lookup_lt_is_Some_2. lia.
Qed.

Lemma lookup_concat_uniform {X} (b : nat) (ls : list (list X)) (r c : nat) :
  uniform b ls → (c < b)%nat →
  concat ls !! (r * b + c)%nat = ls !! r ≫= (λ row, row !! c).
Proof.
  intros Hu Hc. revert r. induction Hu as [|row ls Hrow _ IH]; intros r.
  - done.
  - cbn [concat]. destruct r as [|r].
    + cbn. by rewrite lookup_app_l by lia.
    + rewrite lookup_app_r by lia.
      replace (S r * b + c - length row)%nat with (r * b + c)%nat by lia.
      apply IH.
Qed.

Section reductions.
Context {A : Type} (add : A → A → A).
Implicit Types (vals : list A) (t : schedule).

Lemma combine_is_Some vals t :
  Forall (λ k, (k < length vals)%nat) (leaves t) →
  is_Some (combine add vals t).
Proof.
  induction t as [k|l IHl r IHr]; cbn [combine leaves]; intros H.
  - rewrite Forall_singleton in H. by apply lookup_lt_is_Some_2.
  - apply Forall_app in H as [Hl Hr].
    destruct (IHl Hl) as [x ->], (IHr Hr) as [y ->]. cbn. eauto.
Qed.

Lemma combine_one v t : covers t 1 → combine add [v] t = Some v.
Proof. intros H. by rewrite (covers_one t H). Qed.

(** *** Exact addition

    When the addition is associative and commutative the order does not
    matter: every order that takes each member once gives the sum in rank
    order. *)

Lemma foldl_add_assoc `{!Assoc (=) add} a y (l : list A) :
  foldl add (add a y) l = add a (foldl add y l).
Proof.
  revert y. induction l as [|z l IH]; intros y; [done|].
  cbn. by rewrite <- IH, (assoc add).
Qed.

Lemma rank_sum_app `{!Assoc (=) add} (l1 l2 : list A) :
  l1 ≠ [] → l2 ≠ [] →
  rank_sum add (l1 ++ l2)
  = x ← rank_sum add l1; y ← rank_sum add l2; Some (add x y).
Proof.
  destruct l1 as [|x l1], l2 as [|y l2]; try done. intros _ _. cbn.
  by rewrite foldl_app, <- foldl_add_assoc.
Qed.

Lemma rank_sum_Permutation `{!Assoc (=) add} `{!base.Comm (=) add} (l l' : list A) :
  l ≡ₚ l' → rank_sum add l = rank_sum add l'.
Proof.
  induction 1 as [|x l l' Hp IH|x y l|l l' l'' _ IH1 _ IH2].
  - done.
  - destruct l as [|y l], l' as [|y' l'].
    + done.
    + by apply Permutation_nil_cons in Hp.
    + symmetry in Hp. by apply Permutation_nil_cons in Hp.
    + cbn in *. rewrite !foldl_add_assoc. by injection IH as ->.
  - cbn. by rewrite (comm add y x).
  - by rewrite IH1.
Qed.

Lemma combine_leaves `{!Assoc (=) add} vals t :
  Forall (λ k, (k < length vals)%nat) (leaves t) →
  combine add vals t = rank_sum add (omap (λ k, vals !! k) (leaves t)).
Proof.
  induction t as [k|l IHl r IHr]; cbn [leaves combine]; intros H.
  - rewrite Forall_singleton in H.
    destruct (lookup_lt_is_Some_2 vals k H) as [v Hv].
    cbn. by rewrite Hv.
  - apply Forall_app in H as [Hl Hr].
    assert (∀ ks, Forall (λ k, (k < length vals)%nat) ks →
              Forall (λ k, is_Some (vals !! k)) ks) as Hsome.
    { intros ks Hks. eapply Forall_impl; [exact Hks|].
      intros k. apply lookup_lt_is_Some_2. }
    rewrite omap_app, rank_sum_app, <- IHl, <- IHr; [done..| |].
    + intros Hnil. apply (f_equal length) in Hnil.
      rewrite length_omap_total in Hnil by auto.
      pose proof (length_leaves l). cbn in Hnil. lia.
    + intros Hnil. apply (f_equal length) in Hnil.
      rewrite length_omap_total in Hnil by auto.
      pose proof (length_leaves r). cbn in Hnil. lia.
Qed.

Lemma combine_exact `{!Assoc (=) add} `{!base.Comm (=) add} vals t :
  covers t (length vals) → combine add vals t = rank_sum add vals.
Proof.
  intros Hcov. rewrite combine_leaves by by apply covers_bound.
  transitivity (rank_sum add (omap (λ k, vals !! k) (seq 0 (length vals)))).
  - apply rank_sum_Permutation. by rewrite Hcov.
  - by rewrite omap_lookup_seq.
Qed.

(** *** The buffers of a reduction *)

Lemma reduce_sum_Ok (order : orders) (bufs : list (list A)) (count : nat) :
  valid_orders order → bufs ≠ [] → uniform count bufs →
  ∃ total,
    reduce_sum add order bufs = Ok total
    ∧ length total = count
    ∧ ∀ p, (p < count)%nat →
        total !! p
        = combine add (column p bufs) (order (length bufs) count p).
Proof.
  intros Hvalid Hne Hu. destruct bufs as [|b bs]; [done|].
  pose proof Hu as Hu'. apply Forall_cons in Hu' as [Hb Hbs].
  unfold reduce_sum. rewrite decide_True
    by (eapply Forall_impl; [exact Hbs|]; cbn; intros; congruence).
  eexists. split; [reflexivity|]. rewrite Hb.
  assert (Forall (λ p, is_Some (combine add (column p (b :: bs))
                                  (order (length (b :: bs)) count p)))
            (seq 0 count)) as Hsome.
  { apply Forall_seq. intros p Hp. apply combine_is_Some.
    unfold column. rewrite (length_omap_uniform count) by (done || lia).
    apply covers_bound, Hvalid. cbn. lia. }
  split.
  - by rewrite length_omap_total, length_seq.
  - intros p Hp. rewrite lookup_omap_total by done.
    by rewrite lookup_seq_lt.
Qed.
End reductions.

(** ** Arrays: positions, column blocks and element-wise sums *)

Section tensors.
Context {A : Type} (add : A → A → A).
Implicit Types (a b : ndarray A) (sh : nat * nat).

Lemma ndarray_ext a b :
  wf a → wf b → shape a = shape b →
  (∀ r c, at2 a r c = at2 b r c) → a = b.
Proof.
  destruct a as [ca ra], b as [cb rb]. unfold wf, shape, nrows, at2. cbn.
  intros Ha Hb [= Hlen ->] Hat. f_equal. apply list_eq. intros r.
  destruct (ra !! r) as [rowa|] eqn:Ea.
  - destruct (lookup_lt_is_Some_2 rb r) as [rowb Eb].
    { rewrite <- Hlen. by eapply lookup_lt_Some. }
    rewrite Eb. f_equal. apply list_eq. intros c.
    specialize (Hat r c). by rewrite Ea, Eb in Hat.
  - symmetry. apply lookup_ge_None. rewrite <- Hlen.
    by apply lookup_ge_None.
Qed.

Lemma has_shape_uniform n m a : has_shape (n, m) a → uniform m (rows a).
Proof. intros [Hwf [= _ <-]]. exact Hwf. Qed.

Lemma has_shape_nrows n m a : has_shape (n, m) a → length (rows a) = n.
Proof. by intros [_ [= <- _]]. Qed.

Lemma at2_col_block w a p r c :
  at2 (col_block w a p) r c
  = if decide (c < w)%nat then at2 a r (p * w + c) else None.
Proof.
  unfold at2, col_block. cbn. rewrite list_lookup_fmap.
  destruct (rows a !! r) as [row|]; cbn; [|by case_decide].
  case_decide.
  - by rewrite lookup_take_lt, lookup_drop.
  - apply lookup_take_ge. lia.
Qed.

Lemma has_shape_col_block w k a p n :
  has_shape (n, (k * w)%nat) a → (p < k)%nat →
  has_shape (n, w) (col_block w a p).
Proof.
  intros [Hwf [= Hn Hc]] Hp. split.
  - unfold wf, col_block. cbn. apply Forall_fmap.
    eapply Forall_impl; [exact Hwf|]. cbn. intros row Hrow.
    rewrite length_take, length_drop, Hrow, Hc.
    assert ((p + 1) * w ≤ k * w)%nat by (apply Nat.mul_le_mono_r; lia).
    lia.
  - unfold shape, nrows, col_block in *. cbn. by rewrite length_fmap, Hn.
Qed.

(** *** Transposition *)

Lemma has_shape_transpose n m a :
  has_shape (n, m) a → has_shape (m, n) (transpose a).
Proof.
  intros [Hwf [= Hn Hc]]. split.
  - unfold wf, transpose. cbn. apply Forall_fmap, Forall_seq.
    intros j Hj. cbn. eapply length_omap_uniform; [exact Hwf | lia].
  - unfold shape, transpose. cbn. unfold nrows in *. cbn.
    rewrite length_fmap, length_seq. congruence.
Qed.

Lemma at2_transpose a r c : wf a → at2 (transpose a) c r = at2 a r c.
Proof.
  intros Hwf. unfold at2, transpose. cbn. rewrite list_lookup_fmap.
  destruct (decide (c < ncols a)%nat) as [Hc|Hc].
  - rewrite lookup_seq_lt by done. cbn.
    by erewrite omap_lookup_uniform by done.
  - rewrite lookup_seq_ge by lia. cbn.
    destruct (rows a !! r) as [row|] eqn:Er; [|done]. cbn.
    symmetry. apply lookup_ge_None.
    rewrite (proj1 (Forall_lookup _ _) Hwf r row Er). lia.
Qed.

(** *** Element-wise sums *)

Lemma at2_add_nd a b r c :
  at2 (add_nd add a b) r c
  = x ← at2 a r c; y ← at2 b r c; Some (add x y).
Proof.
  unfold at2, add_nd. cbn. rewrite lookup_zip_with.
  destruct (rows a !! r) as [ra|]; [|done]. cbn.
  destruct (rows b !! r) as [rb|]; cbn.
  - by rewrite lookup_zip_with.
  - by destruct (ra !! c).
Qed.

Lemma has_shape_add_nd sh a b :
  has_shape sh a → has_shape sh b → has_shape sh (add_nd add a b).
Proof.
  intros [Ha Sa] [Hb Sb]. rewrite <- Sa in Sb. injection Sb as Hn Hc.
  unfold nrows in Hn. split.
  - unfold wf, add_nd. cbn. apply Forall_lookup. intros i row.
    rewrite lookup_zip_with. intros Hi.
    destruct (rows a !! i) as [ra|] eqn:Ea; [|done].
    destruct (rows b !! i) as [rb|] eqn:Eb; [|done].
    cbn in Hi. injection Hi as <-. rewrite length_zip_with.
    rewrite (proj1 (Forall_lookup _ _) Ha i ra Ea).
    rewrite (proj1 (Forall_lookup _ _) Hb i rb Eb). lia.
  - rewrite <- Sa. unfold shape, nrows, add_nd. cbn.
    rewrite length_zip_with. f_equal. lia.
Qed.

Lemma has_shape_foldl_add sh t ts :
  Forall (has_shape sh) (t :: ts) → has_shape sh (foldl (add_nd add) t ts).
Proof.
  revert t. induction ts as [|u ts IH]; intros t Hall.
  - by apply Forall_cons in Hall as [? _].
  - apply Forall_cons in Hall as [Ht Hall].
    apply Forall_cons in Hall as [Hu Hall]. cbn. apply IH.
    apply Forall_cons. auto using has_shape_add_nd.
Qed.

(** *** Buffers *)

Lemma length_flatten n m a :
  has_shape (n, m) a → length (flatten a) = (n * m)%nat.
Proof.
  intros [Hwf [= <- <-]]. unfold flatten.
  by rewrite (length_concat_uniform (ncols a)).
Qed.

Lemma reshape_flatten n m a :
  has_shape (n, m) a → reshape (flatten a) (Z.of_nat n) m = Ok a.
Proof.
  intros Ha. pose proof (length_flatten _ _ _ Ha) as Hlen.
  destruct Ha as [Hwf [= <- <-]]. unfold reshape.
  rewrite decide_False by lia. rewrite Nat2Z.id.
  rewrite decide_False by (intros Hne; by apply Hne).
  unfold flatten, nrows. rewrite chunks_concat by done. by destruct a.
Qed.

(** *** Sums of the arrays of a group *)

Lemma at2_is_Some n m a (r c : nat) :
  has_shape (n, m) a → (r < n)%nat → (c < m)%nat → is_Some (at2 a r c).
Proof.
  intros [Hwf [= Hn Hc]] Hr Hcm. unfold at2, nrows in *.
  destruct (lookup_lt_is_Some_2 (rows a) r ltac:(lia)) as [row Hrow].
  rewrite Hrow. cbn. apply lookup_lt_is_Some_2.
  rewrite (proj1 (Forall_lookup _ _) Hwf r row Hrow). lia.
Qed.

Lemma at2_None n m a (r c : nat) :
  has_shape (n, m) a → ¬ ((r < n)%nat ∧ (c < m)%nat) → at2 a r c = None.
Proof.
  intros [Hwf [= Hn Hc]] Hrc. unfold at2, nrows in *.
  destruct (rows a !! r) as [row|] eqn:Hrow; [|done]. cbn.
  apply lookup_ge_None.
  rewrite (proj1 (Forall_lookup _ _) Hwf r row Hrow).
  apply lookup_lt_Some in Hrow. lia.
Qed.

Lemma ndarray_ext_shape n m a b :
  has_shape (n, m) a → has_shape (n, m) b →
  (∀ r c, (r < n)%nat → (c < m)%nat → at2 a r c = at2 b r c) → a = b.
Proof.
  intros Ha Hb Hat. apply ndarray_ext; [apply Ha | apply Hb | |].
  - by rewrite (proj2 Ha), (proj2 Hb).
  - intros r c. destruct (decide ((r < n)%nat ∧ (c < m)%nat)) as [[? ?]|Hn].
    + by apply Hat.
    + by rewrite (at2_None n m a), (at2_None n m b).
Qed.

Lemma transpose_involutive n m a :
  has_shape (n, m) a → transpose (transpose a) = a.
Proof.
  intros Ha. pose proof (has_shape_transpose _ _ _ Ha) as Hta.
  apply (ndarray_ext_shape n m); [by apply has_shape_transpose | done |].
  intros r c _ _.
  rewrite at2_transpose by apply Hta. apply at2_transpose, Ha.
Qed.

Lemma at2_flatten n m a (r c : nat) :
  has_shape (n, m) a → (c < m)%nat →
  flatten a !! (r * m + c)%nat = at2 a r c.
Proof.
  intros Ha Hc. unfold flatten, at2.
  apply lookup_concat_uniform; [|done]. by eapply has_shape_uniform.
Qed.

Lemma omap_at2_total n m (ts : list (ndarray A)) (r c : nat) :
  Forall (has_shape (n, m)) ts → (r < n)%nat → (c < m)%nat →
  Forall (λ a, is_Some (at2 a r c)) ts.
Proof.
  intros Hall Hr Hc. eapply Forall_impl; [exact Hall|]. cbn.
  intros a Ha. by apply (at2_is_Some n m).
Qed.

(** The members' values at a position of their buffers are their elements
    at the row and the column of that position. *)
Lemma column_flatten n m (ts : list (ndarray A)) (r c : nat) :
  Forall (has_shape (n, m)) ts → (c < m)%nat →
  column (r * m + c) (flatten <$> ts) = omap (λ a, at2 a r c) ts.
Proof.
  intros Hall Hc. unfold column.
  induction Hall as [|a ts Ha _ IH]; [done|].
  cbn [fmap list_fmap omap list_omap].
  by rewrite (at2_flatten n m a r c Ha Hc), IH.
Qed.

Lemma omap_at2_transpose n m (ts : list (ndarray A)) (r c : nat) :
  Forall (has_shape (n, m)) ts →
  omap (λ a, at2 a c r) (transpose <$> ts) = omap (λ a, at2 a r c) ts.
Proof.
  induction 1 as [|a ts Ha _ IH]; [done|].
  cbn [fmap list_fmap omap list_omap].
  by rewrite (at2_transpose a r c (proj1 Ha)), IH.
Qed.

Lemma rank_sum_at2 n m t (ts : list (ndarray A)) (r c : nat) :
  Forall (has_shape (n, m)) (t :: ts) → (r < n)%nat → (c < m)%nat →
  rank_sum add (omap (λ a, at2 a r c) (t :: ts))
  = at2 (foldl (add_nd add) t ts) r c.
Proof.
  intros Hall Hr Hc. revert t Hall.
  induction ts as [|u ts IH]; intros t Hall.
  - apply Forall_cons in Hall as [Ht _].
    destruct (at2_is_Some n m t r c Ht Hr Hc) as [v Hv].
    cbn. by rewrite Hv.
  - apply Forall_cons in Hall as [Ht Hall].
    pose proof Hall as Hall'. apply Forall_cons in Hall' as [Hu Hts].
    destruct (at2_is_Some n m t r c Ht Hr Hc) as [v Hv].
    destruct (at2_is_Some n m u r c Hu Hr Hc) as [x Hx].
    cbn [foldl]. rewrite <- IH
      by (apply Forall_cons; auto using has_shape_add_nd).
    cbn [omap list_omap]. rewrite at2_add_nd, Hv, Hx. cbn. done.
Qed.

(** The reduction of the buffers of arrays of one shape is the buffer of
    an array of that shape, which holds at every position the sum of the
    members' elements at that position, each taken once. *)
Lemma reduce_sum_arrays (order : orders) n m (ts : list (ndarray A)) :
  valid_orders order → ts ≠ [] → Forall (has_shape (n, m)) ts →
  ∃ s,
    reduce_sum add order (flatten <$> ts) = Ok (flatten s)
    ∧ sum_of add ts n m
        (λ r c, order (length ts) (n * m)%nat (r * m + c)%nat) s.
Proof.
  intros Hvalid Hne Hall.
  destruct (reduce_sum_Ok add order (flatten <$> ts) (n * m)%nat Hvalid)
    as (total & Hred & Hlen & Hat).
  { by destruct ts. }
  { apply Forall_fmap. eapply Forall_impl; [exact Hall|]. cbn.
    intros a Ha. by apply length_flatten. }
  rewrite length_fmap in Hat.
  set (s := NDArray m ((λ i, take m (drop (i * m) total)) <$> seq 0 n)).
  assert (flatten s = total) as Hflat.
  { unfold flatten, s. cbn [rows]. rewrite concat_chunks.
    apply take_ge. lia. }
  exists s. rewrite Hflat. split; [done|]. split; [split|].
  - unfold wf, s. cbn [rows ncols]. apply Forall_fmap, Forall_seq.
    intros i Hi. cbn. rewrite length_take, length_drop, Hlen. nia.
  - unfold shape, nrows, s. cbn [rows ncols].
    by rewrite length_fmap, length_seq.
  - intros r c Hr Hc.
    assert (r * m + c < n * m)%nat as Hp by nia.
    split; [apply Hvalid; destruct ts; [done | cbn; lia]|].
    assert (at2 s r c = total !! (r * m + c)%nat) as Hs.
    { unfold at2, s. cbn [rows]. rewrite list_lookup_fmap.
      rewrite lookup_seq_lt by done. cbn.
      by rewrite lookup_take_lt, lookup_drop by done. }
    destruct (lookup_lt_is_Some_2 total (r * m + c)) as [v Hv]; [lia|].
    exists v. split; [congruence|].
    unfold sum_at. rewrite <- (column_flatten n m) by done.
    by rewrite <- Hat, Hv.
Qed.

(** With an exact addition the order is immaterial: the sum is the one
    in rank order. *)
Lemma sum_of_exact n m (ts : list (ndarray A)) order s :
  exact add → ts ≠ [] → Forall (has_shape (n, m)) ts →
  sum_of add ts n m order s → tensor_sum add ts = Some s.
Proof.
  intros [Hassoc Hcomm] Hne Hall [Hs Hat].
  assert (Assoc (=) add) by exact Hassoc.
  assert (base.Comm (=) add) by exact Hcomm.
  destruct ts as [|t ts]; [done|].
  - cbn. f_equal. symmetry.
    apply (ndarray_ext_shape n m); [done | by apply has_shape_foldl_add |].
    intros r c Hr Hc.
    destruct (Hat r c Hr Hc) as (Hcov & v & -> & Hv).
    rewrite <- Hv, <- (rank_sum_at2 n m) by done.
    unfold sum_at. apply combine_exact; [done..|].
    by rewrite length_omap_total by by apply (omap_at2_total n m).
Qed.

(** The sum over a group of one member is the member's array. *)
Lemma sum_of_one n m t order s :
  has_shape (n, m) t → sum_of add [t] n m order s → s = t.
Proof.
  intros Ht [Hs Hat]. apply (ndarray_ext_shape n m); [done..|].
  intros r c Hr Hc. destruct (Hat r c Hr Hc) as (Hcov & v & -> & Hv).
  rewrite <- Hv. unfold sum_at. cbn [omap list_omap].
  destruct (at2_is_Some n m t r c Ht Hr Hc) as [x Hx]. rewrite Hx.
  by apply combine_one.
Qed.

(** [Allreduce] hands the array of the reduced buffer to every member. *)
Lemma Allreduce_flatten impl n m (ts : list (ndarray A)) (i : nat) t s :
  Forall (has_shape (n, m)) ts → ts !! i = Some t → has_shape (n, m) s →
  reduce_sum add (Allreduce_order impl) (flatten <$> ts) = Ok (flatten s) →
  Allreduce add impl (view i ts) t (empty_like t) = Ok s.
Proof.
  intros Hall Hi Hs Hred.
  assert (has_shape (n, m) t) as [Hwf Ht]
    by exact (proj1 (Forall_lookup _ _) Hall i t Hi).
  unfold Allreduce, empty_like. rewrite Ht. cbn [fst snd].
  rewrite decide_False
    by (unfold size; injection Ht as -> ->; intros Hne; by apply Hne).
  rewrite (round_view i _ t Hi), Hred. cbn [mbind result_bind].
  by apply reshape_flatten.
Qed.

(** [Allreduce] on a group whose members pass arrays of one shape: every
    member receives the same array, their element-wise sum. *)
Lemma Allreduce_sum impl n m (ts : list (ndarray A)) :
  ts ≠ [] → Forall (has_shape (n, m)) ts →
  ∃ s,
    sum_of add ts n m
      (λ r c, Allreduce_order impl (length ts) (n * m)%nat (r * m + c)%nat) s
    ∧ ∀ (i : nat) t, ts !! i = Some t →
        Allreduce add impl (view i ts) t (empty_like t) = Ok s.
Proof.
  intros Hne Hall.
  destruct (reduce_sum_arrays (Allreduce_order impl) n m ts
              (Allreduce_order_valid impl) Hne Hall) as (s & Hred & Hs).
  exists s. split; [done|]. intros i t Hi.
  by apply (Allreduce_flatten impl n m ts i t s Hall Hi (proj1 Hs)).
Qed.
End tensors.

(** ** Concatenation along the feature axis *)

Section concatenate.
Context {A : Type}.

Lemma concatenate1_Ok (arrs : list (ndarray A)) (n : nat) :
  arrs ≠ [] → Forall (λ b, nrows b = n) arrs →
  concatenate1 arrs
  = Ok (NDArray (sum_list (ncols <$> arrs))
          ((λ i, concat ((λ b, default [] (rows b !! i)) <$> arrs))
             <$> seq 0 n)).
Proof.
  intros Hne Hall. destruct arrs as [|a arrs]; [done|].
  unfold concatenate1.
  assert (nrows a = n) as Ha by (by apply Forall_cons in Hall as [? _]).
  rewrite Ha. rewrite decide_True; done.
Qed.

Lemma concatenate1_Raise (arrs : list (ndarray A)) b1 b2 :
  b1 ∈ arrs → b2 ∈ arrs → nrows b1 ≠ nrows b2 →
  concatenate1 arrs = Raise ValueError.
Proof.
  intros H1 H2 Hne. destruct arrs as [|a arrs]; [by apply elem_of_nil in H1|].
  unfold concatenate1. rewrite decide_False; [done|].
  intros Hall. rewrite Forall_forall in Hall.
  apply Hne. by rewrite (Hall b1 H1), (Hall b2 H2).
Qed.
End concatenate.

(** ** Forward collectors and the layout of the local tensor *)

(** C6, as stated, fails: the planner expects widths 4 and 2, both members
    hold a tensor of width 3, and the collector returns a tensor of
    width 6. *)
Lemma naive_forward_accepts_any_width : ¬ layout_mismatch_detected.
Proof.
  intros H.
  set (x := NDArray 3 [[1; 2; 3]]).
  destruct (H pairwise_mpi (view 0 (seqZ 0 2)) 0 2 1 false false 4 4
              (Info 0 0 [0; 1] [0] 4 2) x x (view 0 [x; x]))
    as [Hin _]; [by vm_compute|].
  destruct Hin as [e He]; [by vm_compute|].
  vm_compute in He. discriminate.
Qed.

(** C6, amended.  The naive forward collectors compare no width with the
    planner's: when the members' tensors have the same number of rows the
    call returns, whatever the widths, the concatenation of the members'
    tensors along the feature axis, that is the tensor of that many rows
    whose row [r] is row [r] of every member's tensor in rank order, one
    after the other, and whose width is the sum of the members' widths;
    the one exception they raise is that of the concatenation when a
    member's number of rows differs. *)
Theorem naive_forward_row_check_only {A} (x : ndarray A)
    (mp_comm : Comm (ndarray A)) (mp_size : Z) :
  (Forall (λ b, nrows b = nrows x) (round mp_comm x) →
   ∃ c, naive_collect_forward_input x mp_comm mp_size = Ok c
        ∧ naive_collect_forward_output x mp_comm mp_size = Ok c
        ∧ nrows c = nrows x
        ∧ ncols c = sum_list (ncols <$> round mp_comm x)
        ∧ ∀ r : nat, (r < nrows x)%nat →
            ∃ parts,
              Forall2 (λ b part, rows b !! r = Some part)
                (round mp_comm x) parts
              ∧ rows c !! r = Some (concat parts))
  ∧ ((∃ b, b ∈ round mp_comm x ∧ nrows b ≠ nrows x) →
     naive_collect_forward_input x mp_comm mp_size = Raise ValueError
     ∧ naive_collect_forward_output x mp_comm mp_size = Raise ValueError).
Proof.
  unfold naive_collect_forward_input, naive_collect_forward_output, allgather.
  split.
  - intros Hall. eexists.
    rewrite (concatenate1_Ok _ (nrows x));
      [|unfold round; by destruct (lower mp_comm)|done].
    cbn [mbind result_bind]. split; [reflexivity|]. split; [reflexivity|].
    split; [|split; [reflexivity|]].
    + unfold nrows at 1. cbn. by rewrite length_fmap, length_seq.
    + intros r Hr. cbn [rows].
      exists ((λ b, default [] (rows b !! r)) <$> round mp_comm x). split.
      * apply Forall2_fmap_r, Forall_Forall2_diag.
        eapply Forall_impl; [exact Hall|]. cbn. intros b Hb.
        destruct (lookup_lt_is_Some_2 (rows b) r) as [row ->]; [|done].
        unfold nrows in *. lia.
      * by rewrite list_lookup_fmap, lookup_seq_lt.
  - intros (b & Hb & Hne).
    rewrite (concatenate1_Raise _ b x); [done | done | | done].
    unfold round. apply elem_of_app. right. apply elem_of_cons. by left.
Qed.

Lemma naive_forward_row_check_only_witness :
  naive_collect_forward_input (NDArray 3 [[1; 2; 3]])
    (view 0 [NDArray 3 [[1; 2; 3]]; NDArray 2 [[4; 5]]]) 2
  = Ok (NDArray 5 [[1; 2; 3; 4; 5]]).
Proof.
  destruct (naive_forward_row_check_only (NDArray 3 [[1; 2; 3]])
              (view 0 [NDArray 3 [[1; 2; 3]]; NDArray 2 [[4; 5]]]) 2)
    as [Hok _].
  destruct Hok as (c & Hc & _ & _ & _); [by repeat constructor|].
  rewrite Hc. vm_compute in Hc. by injection Hc as <-.
Defined.

(** ** Megatron collectors and the gradient reducer *)

(** C3. Megatron strategy.  When the members of the model-parallel group
    hold partial outputs of one shape, [megatron_collect_forward_output]
    returns their element-wise sum, the same array on every member: an
    array of that shape whose every element is the sum of the members'
    elements at that position, each member taken once, in the order in
    which the implementation's [Allreduce] combines them (with an exact
    addition, the sum in rank order); the three other Megatron collectors
    return their tensor argument. *)
Theorem megatron_contract {A} (add : A → A → A) (impl : MPI) (n m : nat)
    (outs : list (ndarray A)) (mp_size : Z) :
  outs ≠ [] → Forall (has_shape (n, m)) outs →
  (∃ s,
     sum_of add outs n m
       (λ r c, Allreduce_order impl (length outs) (n * m)%nat (r * m + c)%nat)
       s
     ∧ (exact add → tensor_sum add outs = Some s)
     ∧ ∀ (i : nat) out, outs !! i = Some out →
         megatron_collect_forward_output add impl out (view i outs) mp_size
         = Ok s)
  ∧ (∀ X (x : ndarray A) (mp_comm : Comm X) k,
       megatron_collect_forward_input x mp_comm k = x)
  ∧ (∀ (g : ndarray A) idx k, megatron_collect_backward_output g idx k = g)
  ∧ (∀ X (g : ndarray A) (mp_comm : Comm X) k,
       megatron_collect_backward_x g mp_comm k = g).
Proof.
  intros Hne Hall. split; [|done].
  destruct (Allreduce_sum add impl n m outs Hne Hall) as (s & Hs & Hret).
  exists s. split; [done|]. split; [|exact Hret].
  intros Hexact. by eapply (sum_of_exact add n m outs).
Qed.

Lemma megatron_contract_witness :
  megatron_collect_forward_output Z.add pairwise_mpi
    (NDArray 2 [[10; 20]; [30; 40]])
    (view 1 [NDArray 2 [[1; 2]; [3; 4]]; NDArray 2 [[10; 20]; [30; 40]]]) 2
  = Ok (NDArray 2 [[11; 22]; [33; 44]]).
Proof.
  destruct (megatron_contract Z.add pairwise_mpi 2 2
              [NDArray 2 [[1; 2]; [3; 4]]; NDArray 2 [[10; 20]; [30; 40]]] 2)
    as [(s & _ & Hs & Hall) _].
  - done.
  - repeat constructor.
  - rewrite (Hall 1%nat _ eq_refl). f_equal.
    assert (exact Z.add) as Hexact by (split; intros; lia).
    specialize (Hs Hexact). vm_compute in Hs. by injection Hs as <-.
Defined.

(** C8. Gradient reducer.  When the members of the data-parallel group
    hold weight gradients of one shape and bias gradients of one shape,
    [collect_weight_grad] returns on every member the element-wise sum of
    the weight gradients and that of the bias gradients, neither divided
    by the size of the group: every element is the sum of the members'
    elements at that position, each member taken once, in the order in
    which the implementation's [Allreduce] combines them (with an exact
    addition, the sum in rank order); a group of one member gets its own
    gradients back. *)
Theorem collect_weight_grad_sum {A} (add : A → A → A) (impl : MPI)
    (nw mw nb mb : nat) (grads : list (ndarray A * ndarray A)) :
  grads ≠ [] →
  Forall (λ g, has_shape (nw, mw) g.1 ∧ has_shape (nb, mb) g.2) grads →
  (∃ sw sb,
     sum_of add (fst <$> grads) nw mw
       (λ r c, Allreduce_order impl (length grads) (nw * mw)%nat
                 (r * mw + c)%nat) sw
     ∧ sum_of add (snd <$> grads) nb mb
         (λ r c, Allreduce_order impl (length grads) (nb * mb)%nat
                   (r * mb + c)%nat) sb
     ∧ (exact add →
        tensor_sum add (fst <$> grads) = Some sw
        ∧ tensor_sum add (snd <$> grads) = Some sb)
     ∧ ∀ (i : nat) grad_w grad_b, grads !! i = Some (grad_w, grad_b) →
         collect_weight_grad add impl grad_w grad_b (view i grads)
         = Ok (sw, sb))
  ∧ (∀ grad_w grad_b, grads = [(grad_w, grad_b)] →
       collect_weight_grad add impl grad_w grad_b (Group [] [])
       = Ok (grad_w, grad_b)).
Proof.
  intros Hne Hall.
  assert (Forall (has_shape (nw, mw)) (fst <$> grads)) as Hw.
  { apply Forall_fmap. eapply Forall_impl; [exact Hall|]. by intros g [? _]. }
  assert (Forall (has_shape (nb, mb)) (snd <$> grads)) as Hb.
  { apply Forall_fmap. eapply Forall_impl; [exact Hall|]. by intros g [_ ?]. }
  destruct (Allreduce_sum add impl nw mw (fst <$> grads))
    as (sw & Hsw & Hretw); [by destruct grads | done |].
  destruct (Allreduce_sum add impl nb mb (snd <$> grads))
    as (sb & Hsb & Hretb); [by destruct grads | done |].
  rewrite length_fmap in Hsw, Hsb.
  assert (∀ (i : nat) grad_w grad_b, grads !! i = Some (grad_w, grad_b) →
            collect_weight_grad add impl grad_w grad_b (view i grads)
            = Ok (sw, sb)) as Hstep.
  { intros i grad_w grad_b Hi. unfold collect_weight_grad.
    rewrite !comm_map_view.
    rewrite (Hretw i grad_w) by (by rewrite list_lookup_fmap, Hi).
    cbn [mbind result_bind].
    by rewrite (Hretb i grad_b) by (by rewrite list_lookup_fmap, Hi). }
  split.
  - exists sw, sb. split; [done|]. split; [done|]. split; [|done].
    intros Hexact. split.
    + eapply (sum_of_exact add nw mw); [done | by destruct grads | done |].
      exact Hsw.
    + eapply (sum_of_exact add nb mb); [done | by destruct grads | done |].
      exact Hsb.
  - intros grad_w grad_b ->.
    change (Group [] []) with (view 0 [(grad_w, grad_b)]).
    rewrite (Hstep 0%nat grad_w grad_b eq_refl). f_equal.
    rewrite Forall_singleton in Hall. destruct Hall as [Hgw Hgb]. cbn in Hgw, Hgb.
    cbn in Hsw, Hsb.
    by rewrite (sum_of_one add nw mw grad_w _ sw Hgw Hsw),
      (sum_of_one add nb mb grad_b _ sb Hgb Hsb).
Qed.

Lemma collect_weight_grad_sum_witness :
  collect_weight_grad Z.add pairwise_mpi
    (NDArray 2 [[1; 2]]) (NDArray 1 [[5]])
    (view 0 [(NDArray 2 [[1; 2]], NDArray 1 [[5]]);
             (NDArray 2 [[3; 4]], NDArray 1 [[7]])])
  = Ok (NDArray 2 [[4; 6]], NDArray 1 [[12]]).
Proof.
  destruct (collect_weight_grad_sum Z.add pairwise_mpi 1 2 1 1
              [(NDArray 2 [[1; 2]], NDArray 1 [[5]]);
               (NDArray 2 [[3; 4]], NDArray 1 [[7]])])
    as [(sw & sb & _ & _ & Hs & Hall) _].
  - done.
  - repeat constructor.
  - rewrite (Hall 0%nat _ _ eq_refl).
    assert (exact Z.add) as Hexact by (split; intros; lia).
    destruct (Hs Hexact) as [Hsw Hsb].
    vm_compute in Hsw, Hsb. injection Hsw as <-. by injection Hsb as <-.
Defined.

(** ** Naive collectors *)

Section naive.
Context {A : Type} (add : A → A → A).
Implicit Types (a s : ndarray A).

Lemma lookup_col_blocks w a k (i : nat) :
  (i < k)%nat → (col_block w a <$> seq 0 k) !! i = Some (col_block w a i).
Proof. intros Hi. by rewrite list_lookup_fmap, lookup_seq_lt. Qed.

(** Gathering the column blocks of an array puts it together again. *)
Lemma concatenate1_col_blocks n k w a :
  (1 ≤ k)%nat → has_shape (n, (k * w)%nat) a →
  concatenate1 (col_block w a <$> seq 0 k) = Ok a.
Proof.
  intros Hk [Hwf [= Hn Hc]].
  rewrite (concatenate1_Ok _ (nrows a)).
  - f_equal. destruct a as [c rs]. unfold nrows in *. cbn in *. f_equal.
    + rewrite <- list_fmap_compose.
      rewrite (list_fmap_ext _ (λ _, w)) by done.
      by rewrite sum_list_const, length_seq, Hc.
    + rewrite <- (fmap_lookup_seq [] rs) at 2.
      apply list_fmap_ext. intros j r Hr.
      apply lookup_seq in Hr as [Er Hr]. cbn in Er. subst j. cbn.
      destruct (lookup_lt_is_Some_2 rs r Hr) as [row Hrow].
      rewrite Hrow, <- list_fmap_compose. cbn.
      rewrite (list_fmap_ext _ (λ p, take w (drop (p * w) row))).
      * rewrite concat_chunks. apply take_ge.
        rewrite (proj1 (Forall_lookup _ _) Hwf r row Hrow). cbn. lia.
      * intros _ p _. cbn. by rewrite list_lookup_fmap, Hrow.
  - destruct k; [lia | done].
  - apply Forall_fmap, Forall_seq. intros p _. cbn.
    unfold nrows, col_block. cbn. by rewrite length_fmap.
Qed.

(** Splitting an array into [k] sections gives its column blocks. *)
Lemma split1_col_blocks n k w a :
  (1 ≤ k)%nat → has_shape (n, (k * w)%nat) a →
  split1 a (Z.of_nat k) = Ok (col_block w a <$> seq 0 k).
Proof.
  intros Hk [Hwf [= Hn Hc]]. unfold split1.
  rewrite pymod_Ok by lia. cbn [mbind result_bind].
  rewrite Hc, Nat2Z.inj_mul, Z.mul_comm, Z.mod_mul by lia.
  rewrite decide_False by (intros Hne; by apply Hne).
  rewrite decide_False by lia.
  rewrite Nat2Z.id, Nat.mul_comm, Nat.div_mul by lia. done.
Qed.

Lemma getitem_lookup {T} (l : list T) (i : nat) x :
  l !! i = Some x → getitem l (Z.of_nat i) = Ok x.
Proof.
  intros Hx. pose proof (lookup_lt_Some _ _ _ Hx). unfold getitem.
  cbv zeta. rewrite (decide_False (P := Z.of_nat i < 0)) by lia.
  rewrite decide_True by lia. by rewrite Nat2Z.id, Hx.
Qed.
End naive.

(** C1. Naive forward/backward duality.  Let [T] have [batch_size] rows
    and [mp_size * w] columns, [mp_size >= 1], and let the member of rank
    [i] of the model-parallel group hold column block [i] of [T].  Then
    [naive_collect_forward_output] returns [T] on every member,
    [naive_collect_backward_output T i mp_size] returns column block [i],
    and collecting forward and then backward on member [i] returns the
    block the member started from. *)
Theorem naive_forward_backward_duality {A} (T : ndarray A)
    (batch_size mp_size w : nat) :
  (1 ≤ mp_size)%nat → has_shape (batch_size, (mp_size * w)%nat) T →
  let blocks := col_block w T <$> seq 0 mp_size in
  ∀ i : nat, (i < mp_size)%nat →
    naive_collect_forward_output (col_block w T i) (view i blocks)
      (Z.of_nat mp_size) = Ok T
    ∧ naive_collect_backward_output T (Z.of_nat i) (Z.of_nat mp_size)
      = Ok (col_block w T i)
    ∧ (full ← naive_collect_forward_output (col_block w T i) (view i blocks)
                (Z.of_nat mp_size);
       naive_collect_backward_output full (Z.of_nat i) (Z.of_nat mp_size))
      = Ok (col_block w T i).
Proof.
  intros Hk HT blocks i Hi.
  assert (naive_collect_forward_output (col_block w T i) (view i blocks)
            (Z.of_nat mp_size) = Ok T) as Hfwd.
  { unfold naive_collect_forward_output, allgather.
    rewrite (round_view i blocks) by by apply lookup_col_blocks.
    unfold blocks. by rewrite (concatenate1_col_blocks batch_size). }
  assert (naive_collect_backward_output T (Z.of_nat i) (Z.of_nat mp_size)
          = Ok (col_block w T i)) as Hbwd.
  { unfold naive_collect_backward_output.
    rewrite (split1_col_blocks batch_size mp_size w) by done.
    cbn [mbind result_bind].
    by rewrite (getitem_lookup _ i (col_block w T i))
      by by apply lookup_col_blocks. }
  repeat split; [done..|]. by rewrite Hfwd.
Qed.

Lemma naive_forward_backward_duality_witness :
  let T := NDArray 4 [[1; 2; 3; 4]; [5; 6; 7; 8]] in
  naive_collect_forward_output (NDArray 2 [[3; 4]; [7; 8]])
    (view 1 [NDArray 2 [[1; 2]; [5; 6]]; NDArray 2 [[3; 4]; [7; 8]]]) 2 = Ok T
  ∧ naive_collect_backward_output T 1 2 = Ok (NDArray 2 [[3; 4]; [7; 8]]).
Proof.
  intros T.
  destruct (naive_forward_backward_duality T 2 2 2) with (i := 1%nat)
    as (Hf & Hb & _); [lia | by repeat constructor | lia |].
  split; [exact Hf | exact Hb].
Defined.

Section reduce_scatter.
Context {A : Type} (add : A → A → A).
Implicit Types (g s : ndarray A).

(** Transposing back the columns [p * w .. (p + 1) * w) of an array, kept
    as rows of its transpose, gives column block [p]. *)
Lemma transpose_cols_col_block n k w s p :
  has_shape (n, (k * w)%nat) s → (p < k)%nat →
  transpose (NDArray n (take w (drop (p * w) (rows (transpose s)))))
  = col_block w s p.
Proof.
  intros Hs Hp.
  pose proof (has_shape_transpose _ _ _ Hs) as Hts.
  pose proof (has_shape_uniform _ _ _ Hts) as Hwt.
  pose proof (has_shape_nrows _ _ _ Hts) as Hnt.
  assert ((p + 1) * w ≤ k * w)%nat by (apply Nat.mul_le_mono_r; lia).
  set (cs := take w (drop (p * w) (rows (transpose s)))).
  assert (has_shape (w, n) (NDArray n cs)) as Hm.
  { split.
    - unfold wf. cbn. by apply Forall_take, Forall_drop.
    - unfold shape, nrows. cbn [rows ncols]. unfold cs.
      rewrite length_take, length_drop, Hnt. f_equal. lia. }
  pose proof (has_shape_transpose _ _ _ Hm) as Htm.
  pose proof (has_shape_col_block _ _ _ _ _ Hs Hp) as Hb.
  apply ndarray_ext; [apply Htm | apply Hb | |].
  - by rewrite (proj2 Htm), (proj2 Hb).
  - intros r c. rewrite at2_transpose by apply Hm.
    rewrite at2_col_block. unfold at2 at 1. cbn. unfold cs.
    case_decide.
    + rewrite lookup_take_lt, lookup_drop by done.
      rewrite <- (at2_transpose s) by apply Hs. done.
    + by rewrite lookup_take_ge by lia.
Qed.

(** Reshaping the received segment to [(w, n)] and transposing it. *)
Lemma reshape_transpose_col_block n k w s p :
  has_shape (n, (k * w)%nat) s → (p < k)%nat →
  (reshaped ← reshape (concat (take w (drop (p * w) (rows (transpose s)))))
                (Z.of_nat w) n;
   Ok (transpose reshaped))
  = Ok (col_block w s p).
Proof.
  intros Hs Hp.
  pose proof (has_shape_transpose _ _ _ Hs) as Hts.
  pose proof (has_shape_uniform _ _ _ Hts) as Hwt.
  pose proof (has_shape_nrows _ _ _ Hts) as Hnt.
  assert ((p + 1) * w ≤ k * w)%nat by (apply Nat.mul_le_mono_r; lia).
  set (cs := take w (drop (p * w) (rows (transpose s)))).
  assert (uniform n cs) as Hcs by (by apply Forall_take, Forall_drop).
  assert (length cs = w) as Hlcs
    by (unfold cs; rewrite length_take, length_drop; lia).
  unfold reshape. rewrite decide_False by lia.
  rewrite (length_concat_uniform n), Hlcs, Nat2Z.id by done.
  rewrite decide_False by (intros Hne; by apply Hne).
  replace (seq 0 w) with (seq 0 (length cs)) by (by rewrite Hlcs).
  rewrite chunks_concat by done. cbn [mbind result_bind]. f_equal.
  by apply (transpose_cols_col_block n k).
Qed.

(** What the members pass when their gradients have one shape. *)
Lemma backward_x_buffers_shape n k w g :
  (1 ≤ k)%nat → has_shape (n, (w * k)%nat) g →
  backward_x_buffers g (Z.of_nat k)
  = (flatten (transpose g), (w * n)%nat).
Proof.
  intros Hk [_ Hg]. unfold backward_x_buffers. rewrite Hg. f_equal.
  rewrite Nat2Z.inj_mul, Z.div_mul, <- Nat2Z.inj_mul by lia.
  apply Nat2Z.id.
Qed.

(** The sum of the transposed arrays, transposed back. *)
Lemma sum_of_transpose n m (ts : list (ndarray A)) order s :
  Forall (has_shape (n, m)) ts →
  sum_of add (transpose <$> ts) m n order s →
  sum_of add ts n m (λ r c, order c r) (transpose s).
Proof.
  intros Hall [Hs Hat]. split; [by apply has_shape_transpose|].
  intros r c Hr Hc. destruct (Hat c r Hc Hr) as (Hcov & v & Hv & Hsum).
  rewrite length_fmap in Hcov. split; [done|]. exists v. split.
  - by rewrite at2_transpose by apply Hs.
  - unfold sum_at in *. by rewrite <- (omap_at2_transpose n m).
Qed.

(** The segment of the reduced buffer that member [i] receives. *)
Lemma Reduce_scatter_segment impl n k w (gs : list (ndarray A)) (i : nat)
    g s :
  length gs = k → Forall (has_shape (n, (w * k)%nat)) gs →
  gs !! i = Some g → has_shape ((w * k)%nat, n) s →
  reduce_sum add (Reduce_scatter_order impl) (flatten <$> (transpose <$> gs))
  = Ok (flatten s) →
  Reduce_scatter add impl
    (view i ((λ g', backward_x_buffers g' (Z.of_nat k)) <$> gs))
    (flatten (transpose g)) (w * n)
  = Ok (concat (take w (drop (i * w) (rows s)))).
Proof.
  intros Hlen Hall Hi Hs Hred.
  pose proof (lookup_lt_Some _ _ _ Hi) as Hik.
  assert (1 ≤ k)%nat as Hk by lia.
  assert (has_shape (n, (w * k)%nat) g) as Hg
    by exact (proj1 (Forall_lookup _ _) Hall i g Hi).
  pose proof (has_shape_uniform _ _ _ Hs) as Hwt.
  assert ((λ g', backward_x_buffers g' (Z.of_nat k)) <$> gs
          = (λ g', (flatten (transpose g'), (w * n)%nat)) <$> gs) as ->.
  { apply list_fmap_ext. intros j g' Hg'.
    apply (backward_x_buffers_shape n k w); [done|].
    exact (proj1 (Forall_lookup _ _) Hall j g' Hg'). }
  unfold Reduce_scatter.
  erewrite Get_rank_view by (by rewrite list_lookup_fmap, Hi).
  rewrite (round_view i _ (flatten (transpose g), (w * n)%nat))
    by (by rewrite list_lookup_fmap, Hi).
  rewrite <- !list_fmap_compose. unfold compose. cbn [fst snd].
  rewrite <- fmap_take, !sum_list_const, length_take, Hlen.
  rewrite (length_flatten (w * k) n)
    by (by apply has_shape_transpose).
  rewrite decide_False by lia.
  rewrite <- list_fmap_compose in Hred. unfold compose in Hred.
  rewrite Hred. cbn [mbind result_bind]. f_equal.
  unfold flatten.
  replace (i `min` k * (w * n))%nat with ((i * w) * n)%nat by lia.
  rewrite (drop_concat_uniform n) by done.
  rewrite (Nat.mul_comm w n), (Nat.mul_comm n w).
  apply (take_concat_uniform n). by apply Forall_drop.
Qed.

(** Every member of the group receives its column block of one array, the
    element-wise sum of the members' gradients. *)
Lemma naive_collect_backward_x_sum impl n k w (gs : list (ndarray A)) :
  (1 ≤ k)%nat → length gs = k → Forall (has_shape (n, (k * w)%nat)) gs →
  ∃ s,
    sum_of add gs n (k * w)
      (λ r c, Reduce_scatter_order impl k (k * w * n)%nat (c * n + r)%nat) s
    ∧ ∀ (i : nat) g, gs !! i = Some g →
        naive_collect_backward_x add impl g
          (view i ((λ g', backward_x_buffers g' (Z.of_nat k)) <$> gs))
          (Z.of_nat k)
        = Ok (col_block w s i).
Proof.
  intros Hk Hlen Hall.
  assert (Forall (has_shape ((k * w)%nat, n)) (transpose <$> gs)) as Htr.
  { apply Forall_fmap. eapply Forall_impl; [exact Hall|]. cbn. intros g'.
    apply has_shape_transpose. }
  destruct (reduce_sum_arrays add (Reduce_scatter_order impl) (k * w) n
              (transpose <$> gs) (Reduce_scatter_order_valid impl))
    as (s' & Hred & Hs');
    [destruct gs; [cbn in Hlen; lia | done] | done |].
  rewrite length_fmap, Hlen in Hs'.
  pose proof (sum_of_transpose n (k * w) gs _ s' Hall Hs') as Hs.
  exists (transpose s'). split; [exact Hs|]. intros i g Hi.
  pose proof (lookup_lt_Some _ _ _ Hi) as Hik. rewrite Hlen in Hik.
  assert (has_shape (n, (k * w)%nat) g) as [_ Hg]
    by exact (proj1 (Forall_lookup _ _) Hall i g Hi).
  unfold naive_collect_backward_x, ascontiguousarray, copy. rewrite Hg.
  rewrite floordiv_Ok by lia. cbn [mbind result_bind].
  rewrite Nat2Z.inj_mul, Z.mul_comm, Z.div_mul, <- Nat2Z.inj_mul by lia.
  unfold empty. rewrite decide_False by lia. cbn [mbind result_bind].
  rewrite Nat2Z.id.
  rewrite (Nat.mul_comm k w) in Hall, Htr, Hs'.
  rewrite (Reduce_scatter_segment impl n k w gs i g s' Hlen Hall Hi
             (proj1 Hs') Hred).
  cbn [mbind result_bind].
  rewrite <- (transpose_involutive (w * k) n s') at 1 by apply Hs'.
  by apply (reshape_transpose_col_block n k); [apply Hs|].
Qed.
End reduce_scatter.

(** C2. Reduce-scatter of the naive backward input collective.  Let the
    [mp_size >= 1] members of the model-parallel group hold gradients
    [G_0 .. G_{mp_size - 1}] of shape [(batch_size, in_dim)] with [mp_size]
    dividing [in_dim], every member running [naive_collect_backward_x].
    The member of rank [i] receives column block [i], of width
    [in_dim / mp_size], of the element-wise sum of the gradients: the
    element at row [r] and column [c] of its result is the element at row
    [r] and column [i * (in_dim / mp_size) + c] of the sum.  The sum is
    one array for the whole group; its element at a row and a column is
    the sum of the members' elements at that row and column, each member
    taken once, in the order in which the implementation's
    [Reduce_scatter] combines them (with an exact addition, the sum in rank
    order). *)
Theorem naive_backward_x_reduce_scatter {A} (add : A → A → A) (impl : MPI)
    (Gs : list (ndarray A)) (batch_size in_dim mp_size : nat) :
  (1 ≤ mp_size)%nat → length Gs = mp_size →
  Forall (has_shape (batch_size, in_dim)) Gs →
  (mp_size | in_dim)%nat →
  let w := (in_dim `div` mp_size)%nat in
  let sends := (λ G, backward_x_buffers G (Z.of_nat mp_size)) <$> Gs in
  ∃ s,
    sum_of add Gs batch_size in_dim
      (λ r c, Reduce_scatter_order impl mp_size (in_dim * batch_size)%nat
                (c * batch_size + r)%nat) s
    ∧ (exact add → tensor_sum add Gs = Some s)
    ∧ ∀ (i : nat) g, Gs !! i = Some g →
        ∃ out,
          naive_collect_backward_x add impl g (view i sends)
            (Z.of_nat mp_size) = Ok out
          ∧ out = col_block w s i
          ∧ shape out = (batch_size, w)
          ∧ ∀ r c : nat, (c < w)%nat →
              at2 out r c = at2 s r (i * w + c).
Proof.
  intros Hk Hlen Hall [w' Hdiv] w sends.
  assert (w = w') as Hw by (unfold w; rewrite Hdiv; apply Nat.div_mul; lia).
  clearbody w. subst w' in_dim.
  rewrite (Nat.mul_comm w mp_size) in *.
  destruct (naive_collect_backward_x_sum add impl batch_size mp_size w Gs
              Hk Hlen Hall) as (s & Hs & Hret).
  exists s. split; [exact Hs|]. split.
  - intros Hexact.
    eapply (sum_of_exact add batch_size (mp_size * w));
      [done | destruct Gs; [cbn in Hlen; lia | done] | done | exact Hs].
  - intros i g Hi.
    pose proof (lookup_lt_Some _ _ _ Hi) as Hik. rewrite Hlen in Hik.
    pose proof (has_shape_col_block w mp_size _ i batch_size (proj1 Hs) Hik)
      as Hb.
    exists (col_block w s i). split; [by apply Hret|].
    split; [done|]. split; [apply Hb|].
    intros r c Hc. rewrite at2_col_block. by rewrite decide_True.
Qed.

Lemma naive_backward_x_reduce_scatter_witness :
  let g0 := NDArray 4 [[1; 2; 3; 4]; [5; 6; 7; 8]] in
  let g1 := NDArray 4 [[10; 20; 30; 40]; [50; 60; 70; 80]] in
  naive_collect_backward_x Z.add pairwise_mpi g1
    (view 1 ((λ G, backward_x_buffers G 2) <$> [g0; g1])) 2
  = Ok (NDArray 2 [[33; 44]; [77; 88]]).
Proof.
  intros g0 g1.
  destruct (naive_backward_x_reduce_scatter Z.add pairwise_mpi [g0; g1] 2 4 2)
    as (s & _ & Hs & Hall).
  - lia.
  - reflexivity.
  - by repeat constructor.
  - by exists 2%nat.
  - destruct (Hall 1%nat g1 eq_refl) as (out & Hout & -> & _).
    assert (exact Z.add) as Hexact by (split; intros; lia).
    specialize (Hs Hexact). vm_compute in Hs. injection Hs as <-.
    exact Hout.
Defined.

(** * Further properties *)

(** ** [split_data] on every input *)

Lemma length_getslice_le {T} (l : list T) (a c : Z) :
  0 ≤ c → (length (getslice l a (a + c)) ≤ Z.to_nat c)%nat.
Proof.
  intros Hc. unfold getslice, adjust_index.
  rewrite length_take, length_drop.
  repeat case_decide; lia.
Qed.

Lemma take_length_take {T} (l : list T) (n : nat) :
  take (length (take n l)) l = take n l.
Proof.
  rewrite length_take. destruct (decide (n ≤ length l)%nat).
  - f_equal. lia.
  - rewrite !take_ge; [done | lia..].
Qed.

Lemma getslice_empty {T} (l : list T) (a : Z) : getslice l a a = [].
Proof. unfold getslice. by rewrite Nat.sub_diag, take_0. Qed.

(** X1. [split_data] raises exactly when [mp_size] or [dp_size] is zero,
    and then the exception is the division by zero: for every other pair
    of sizes, whatever their sign and whatever the rank and the data, it
    returns. *)
Theorem split_data_raises_iff {A B} (x : ndarray A) (y : list B)
    (mp_size dp_size rank : Z) :
  (mp_size = 0 ∨ dp_size = 0 →
   split_data x y mp_size dp_size rank = Raise ZeroDivisionError)
  ∧ (mp_size ≠ 0 → dp_size ≠ 0 →
     ∃ xs ys, split_data x y mp_size dp_size rank = Ok (xs, ys))
  ∧ (∀ e, split_data x y mp_size dp_size rank = Raise e →
       e = ZeroDivisionError ∧ (mp_size = 0 ∨ dp_size = 0)).
Proof.
  unfold split_data, floordiv.
  destruct (decide (mp_size = 0)) as [Hmp|Hmp]; cbn [mbind result_bind].
  { split; [done|]. split; [done|]. intros e [= <-]. auto. }
  destruct (decide (dp_size = 0)) as [Hdp|Hdp]; cbn [mbind result_bind].
  { split; [done|]. split; [done|]. intros e [= <-]. auto. }
  split; [by intros [?|?]|]. split; [by eauto | done].
Qed.

Lemma split_data_raises_iff_witness :
  split_data (NDArray 1 [[10]; [11]]) [0; 1] 2 0 1 = Raise ZeroDivisionError
  ∧ ∃ xs ys,
      split_data (NDArray 1 [[10]; [11]]) [0; 1] (-2) 1 1 = Ok (xs, ys).
Proof.
  split.
  - apply (split_data_raises_iff (NDArray 1 [[10]; [11]]) [0; 1] 2 0 1).
    by right.
  - by apply (split_data_raises_iff (NDArray 1 [[10]; [11]]) [0; 1] (-2) 1 1).
Defined.

(** X2. For [dp_size >= 1], a non-zero [mp_size] and every rank, in the
    grid or not, negative or not, the shard [split_data] returns is a run
    of consecutive rows of [x] of the width of [x], with at most
    [chunk = data_num // dp_size] rows and as many labels at most; it is
    well formed when [x] is. *)
Theorem split_data_shard_bounded {A B} (x : ndarray A) (y : list B)
    (mp_size dp_size rank : Z) :
  mp_size ≠ 0 → 1 ≤ dp_size →
  let chunk := (nrows x `div` Z.to_nat dp_size)%nat in
  ∃ xs ys,
    split_data x y mp_size dp_size rank = Ok (xs, ys)
    ∧ ncols xs = ncols x
    ∧ (nrows xs ≤ chunk)%nat ∧ (length ys ≤ chunk)%nat
    ∧ (∃ s, rows xs = take (nrows xs) (drop s (rows x)))
    ∧ (wf x → wf xs).
Proof.
  intros Hmp Hdp chunk. unfold split_data.
  rewrite !floordiv_Ok by lia. cbn [mbind result_bind].
  assert (Z.of_nat (nrows x) / dp_size = Z.of_nat chunk) as ->.
  { unfold chunk. rewrite Nat2Z.inj_div, Z2Nat.id by lia. done. }
  set (start := rank / mp_size * Z.of_nat chunk).
  do 2 eexists. split; [reflexivity|].
  pose proof (length_getslice_le (rows x) start (Z.of_nat chunk)).
  pose proof (length_getslice_le y start (Z.of_nat chunk)).
  unfold getslice0, nrows at 1 2. cbn [rows ncols].
  repeat split; [lia | lia | |].
  - eexists. unfold getslice. by rewrite take_length_take.
  - unfold wf. cbn [rows ncols]. unfold getslice.
    intros Hwf. by apply Forall_take, Forall_drop.
Qed.

Lemma split_data_shard_bounded_witness :
  ∃ xs ys,
    split_data (NDArray 1 [[10]; [11]; [12]; [13]; [14]]) [0; 1; 2; 3; 4]
      1 2 (-2) = Ok (xs, ys)
    ∧ (nrows xs ≤ 2)%nat.
Proof.
  destruct (split_data_shard_bounded
              (NDArray 1 [[10]; [11]; [12]; [13]; [14]]) [0; 1; 2; 3; 4]
              1 2 (-2)) as (xs & ys & Hs & _ & Hn & _); [lia | lia |].
  exists xs, ys. split; [exact Hs | exact Hn].
Defined.

(** X3. When there are as many labels as rows, [split_data] cuts [x] and
    [y] at the same positions, for every rank and all non-zero sizes: row
    [j] of the shard and label [j] of the shard come from the same index
    of the data. *)
Theorem split_data_aligned {A B} (x : ndarray A) (y : list B)
    (mp_size dp_size rank : Z) :
  length y = nrows x → mp_size ≠ 0 → dp_size ≠ 0 →
  ∃ (s n : nat),
    split_data x y mp_size dp_size rank
    = Ok (NDArray (ncols x) (take n (drop s (rows x))), take n (drop s y))
    ∧ length (take n (drop s (rows x))) = length (take n (drop s y))
    ∧ ∀ j : nat, (j < n)%nat →
        take n (drop s (rows x)) !! j = rows x !! (s + j)%nat
        ∧ take n (drop s y) !! j = y !! (s + j)%nat.
Proof.
  intros Hlen Hmp Hdp. unfold split_data.
  rewrite !floordiv_Ok by lia. cbn [mbind result_bind].
  unfold getslice0, getslice. rewrite Hlen. unfold nrows.
  do 2 eexists. split; [reflexivity|]. split.
  - rewrite !length_take, !length_drop. unfold nrows in Hlen. lia.
  - intros j Hj. by rewrite !lookup_take_lt, !lookup_drop by done.
Qed.

Lemma split_data_aligned_witness :
  ∃ (s n : nat),
    split_data (NDArray 1 [[10]; [11]; [12]; [13]; [14]]) [0; 1; 2; 3; 4]
      1 2 1
    = Ok (NDArray 1 (take n (drop s [[10]; [11]; [12]; [13]; [14]])),
          take n (drop s [0; 1; 2; 3; 4])).
Proof.
  destruct (split_data_aligned
              (NDArray 1 [[10]; [11]; [12]; [13]; [14]]) [0; 1; 2; 3; 4]
              1 2 1) as (s & n & Hs & _); [reflexivity | lia | lia |].
  exists s, n. exact Hs.
Defined.

(** X4. With fewer rows than data-parallel groups the chunk is empty, and
    every rank receives no row and no label. *)
Theorem split_data_fewer_rows_than_groups {A B} (x : ndarray A) (y : list B)
    (mp_size dp_size rank : Z) :
  mp_size ≠ 0 → Z.of_nat (nrows x) < dp_size →
  split_data x y mp_size dp_size rank = Ok (NDArray (ncols x) [], []).
Proof.
  intros Hmp Hdp. unfold split_data.
  rewrite !floordiv_Ok by lia. cbn [mbind result_bind].
  rewrite (Z.div_small (Z.of_nat (nrows x))) by lia.
  rewrite Z.mul_0_r, Z.add_0_r.
  unfold getslice0. by rewrite !getslice_empty.
Qed.

Lemma split_data_fewer_rows_than_groups_witness :
  split_data (NDArray 1 [[10]; [11]]) [0; 1] 2 3 5 = Ok (NDArray 1 [], []).
Proof.
  apply (split_data_fewer_rows_than_groups (NDArray 1 [[10]; [11]]) [0; 1]);
    [lia | by vm_compute].
Defined.

(** ** The groups of the grid and the data shards *)

Lemma grid_communicators_witness :
  ∃ i, get_info pairwise_mpi (view 3 (seqZ 0 6)) 3 2 3 false true 8 4 = Ok i
       ∧ mp_comm i = [2; 3] ∧ dp_comm i = [1; 3; 5].
Proof.
  destruct (grid_communicators pairwise_mpi 2 3 3 false true 8 4)
    as [Hret _]; [lia | lia | lia |].
  destruct Hret as (i & Hi & Hm & _ & Hd & _); [unfold INT_MAX; lia|].
  exists i. split; [exact Hi|]. rewrite Hm, Hd.
  vm_compute in Hi. injection Hi as <-. split; reflexivity.
Defined.

(** X6. On the grid, the members of a rank's model-parallel group all
    receive the shard of that rank, and the shards of the members of its
    data-parallel group, taken in group order, concatenate to the first
    [dp_size * chunk] rows of [x] and labels of [y]. *)
Theorem grid_groups_and_shards {A B} (x : ndarray A) (y : list B)
    impl mp_size dp_size rank is_fc1 is_megatron_mp in_dim out_dim i :
  1 ≤ mp_size → 1 ≤ dp_size → 0 ≤ rank < mp_size * dp_size →
  get_info impl (view (Z.to_nat rank) (seqZ 0 (mp_size * dp_size)))
    rank mp_size dp_size is_fc1 is_megatron_mp in_dim out_dim = Ok i →
  let chunk := (nrows x `div` Z.to_nat dp_size)%nat in
  (∀ r, r ∈ mp_comm i →
     split_data x y mp_size dp_size r = split_data x y mp_size dp_size rank)
  ∧ concat (x_shard x y mp_size dp_size <$> dp_comm i)
    = take (Z.to_nat dp_size * chunk) (rows x)
  ∧ concat (y_shard x y mp_size dp_size <$> dp_comm i)
    = take (Z.to_nat dp_size * chunk) y.
Proof.
  intros Hmp Hdp Hr Hi chunk.
  assert (rank ≤ INT_MAX) by (eapply get_info_Ok_fits, Hi; lia).
  rewrite get_info_returns in Hi by lia. injection Hi as <-.
  cbn [mp_comm dp_comm]. rewrite round_world by lia.
  pose proof (Z.mod_pos_bound rank mp_size).
  assert (0 ≤ rank / mp_size) by (apply Z.div_pos; lia).
  assert (rank / mp_size < dp_size) by (apply Z.div_lt_upper_bound; lia).
  rewrite !merge_sort_filter_seqZ.
  rewrite filter_block, filter_residue_grid by lia.
  split; [|split].
  - intros r Hin. apply elem_of_seqZ in Hin.
    assert (r / mp_size = rank / mp_size) as Hq.
    { symmetry.
      apply Z.div_unique_pos with (r - rank / mp_size * mp_size); lia. }
    rewrite !(split_data_returns x y mp_size dp_size) by lia.
    by rewrite Hq.
  - unfold seqZ. rewrite <- !list_fmap_compose.
    rewrite <- concat_chunks. f_equal. apply list_fmap_ext.
    intros _ d _. cbn [compose]. unfold x_shard.
    rewrite (split_data_returns x y mp_size dp_size) by nia.
    unfold chunk_of. cbn [rows]. do 2 f_equal.
    rewrite Z.add_0_r, Z.div_add_l, (Z.div_small (rank mod mp_size)) by lia.
    fold chunk. lia.
  - unfold seqZ. rewrite <- !list_fmap_compose.
    rewrite <- concat_chunks. f_equal. apply list_fmap_ext.
    intros _ d _. cbn [compose]. unfold y_shard.
    rewrite (split_data_returns x y mp_size dp_size) by nia.
    unfold chunk_of. do 2 f_equal.
    rewrite Z.add_0_r, Z.div_add_l, (Z.div_small (rank mod mp_size)) by lia.
    fold chunk. lia.
Qed.

Lemma grid_groups_and_shards_witness :
  let x := NDArray 1 [[10]; [11]; [12]; [13]; [14]; [15]; [16]] in
  let y := [0; 1; 2; 3; 4; 5; 6] in
  split_data x y 2 3 2 = split_data x y 2 3 3
  ∧ concat (x_shard x y 2 3 <$> [1; 3; 5])
    = [[10]; [11]; [12]; [13]; [14]; [15]].
Proof.
  intros x y.
  destruct (grid_groups_and_shards x y pairwise_mpi 2 3 3 false true 8 4
              (Info 1 1 [2; 3] [1; 3; 5] 4 4))
    as (Hm & Hx & _); [lia | lia | lia | by vm_compute |].
  split; [apply Hm; by left | exact Hx].
Defined.

(** X15. On the grid, a rank's model-parallel group has [mp_size]
    members and its data-parallel group [dp_size]; all of them are ranks
    of the grid, and the rank itself is the only member of both. *)
Theorem grid_groups_meet impl mp_size dp_size rank
    is_fc1 is_megatron_mp in_dim out_dim i :
  1 ≤ mp_size → 1 ≤ dp_size → 0 ≤ rank < mp_size * dp_size →
  get_info impl (view (Z.to_nat rank) (seqZ 0 (mp_size * dp_size)))
    rank mp_size dp_size is_fc1 is_megatron_mp in_dim out_dim = Ok i →
  Z.of_nat (length (mp_comm i)) = mp_size
  ∧ Z.of_nat (length (dp_comm i)) = dp_size
  ∧ (∀ r, r ∈ mp_comm i ∨ r ∈ dp_comm i → 0 ≤ r < mp_size * dp_size)
  ∧ (∀ r, r ∈ mp_comm i ∧ r ∈ dp_comm i ↔ r = rank).
Proof.
  intros Hmp Hdp Hr Hi.
  assert (rank ≤ INT_MAX) by (eapply get_info_Ok_fits, Hi; lia).
  rewrite get_info_returns in Hi by lia. injection Hi as <-.
  cbn [mp_comm dp_comm]. rewrite round_world by lia.
  pose proof (Z.mod_pos_bound rank mp_size).
  pose proof (Z.div_mod rank mp_size).
  assert (0 ≤ rank / mp_size) by (apply Z.div_pos; lia).
  assert (rank / mp_size < dp_size) by (apply Z.div_lt_upper_bound; lia).
  rewrite !merge_sort_filter_seqZ.
  rewrite filter_block, filter_residue_grid by lia.
  rewrite length_fmap, !length_seqZ.
  assert (∀ r, r ∈ (λ d, d * mp_size + rank mod mp_size) <$> seqZ 0 dp_size
             ↔ ∃ d, r = d * mp_size + rank mod mp_size ∧ 0 ≤ d < dp_size)
    as Hcol.
  { intros r. rewrite list_elem_of_fmap. setoid_rewrite elem_of_seqZ.
    split; intros (d & ? & ?); exists d; split; (done || lia). }
  split; [lia|]. split; [lia|]. split.
  - intros r [Hin|Hin].
    + apply elem_of_seqZ in Hin. nia.
    + apply Hcol in Hin as (d & -> & Hd). nia.
  - intros r. rewrite elem_of_seqZ, Hcol. split.
    + intros [Hrow (d & -> & Hd)].
      assert (d = rank / mp_size) by nia. subst d. lia.
    + intros ->. split; [lia|]. exists (rank / mp_size). lia.
Qed.

Lemma grid_groups_meet_witness :
  let i := Info 1 1 [2; 3] [1; 3; 5] 4 4 in
  Z.of_nat (length (mp_comm i)) = 2 ∧ Z.of_nat (length (dp_comm i)) = 3.
Proof.
  intros i.
  destruct (grid_groups_meet pairwise_mpi 2 3 3 false true 8 4 i)
    as (Hm & Hd & _);
    [lia | lia | lia | by vm_compute |].
  split; [exact Hm | exact Hd].
Defined.

(** X16. [get_info] compares neither [dp_size] nor [mp_size] with the
    size of the communicator: when [mp_size >= 1] and every member of the
    communicator calls it with a rank in [0, 2^31), it returns on the
    caller, for every communicator and every [dp_size]; the caller is a
    member of both of its groups, and the two groups hold exactly the
    members of the communicator whose rank has the caller's quotient,
    respectively remainder, by [mp_size]. *)
Theorem get_info_groups_on_any_communicator impl (comm : Comm Z)
    rank mp_size dp_size is_fc1 is_megatron_mp in_dim out_dim :
  0 < mp_size → Forall (λ r, 0 ≤ r ≤ INT_MAX) (round comm rank) →
  ∃ i,
    get_info impl comm rank mp_size dp_size is_fc1 is_megatron_mp
      in_dim out_dim = Ok i
    ∧ rank ∈ mp_comm i ∧ rank ∈ dp_comm i
    ∧ (∀ r, r ∈ mp_comm i
            ↔ r ∈ round comm rank ∧ r / mp_size = rank / mp_size)
    ∧ (∀ r, r ∈ dp_comm i
            ↔ r ∈ round comm rank ∧ r mod mp_size = rank mod mp_size).
Proof.
  intros Hmp Hall.
  assert (rank ∈ round comm rank) as Hin
    by (unfold round; apply elem_of_app; right; apply elem_of_cons; by left).
  pose proof (proj1 (Forall_forall _ _) Hall rank Hin) as Hr.
  cbn beta in Hr. rewrite get_info_returns by lia.
  eexists. split; [reflexivity|]. cbn [mp_comm dp_comm].
  assert (∀ r, r ∈ merge_sort Z.le
                     (filter (λ r, r / mp_size = rank / mp_size)
                        (round comm rank))
             ↔ r ∈ round comm rank ∧ r / mp_size = rank / mp_size) as Hmpc.
  { intros r. rewrite merge_sort_Permutation, list_elem_of_filter. tauto. }
  assert (∀ r, r ∈ merge_sort Z.le
                     (filter (λ r, r mod mp_size = rank mod mp_size)
                        (round comm rank))
             ↔ r ∈ round comm rank ∧ r mod mp_size = rank mod mp_size)
    as Hdpc.
  { intros r. rewrite merge_sort_Permutation, list_elem_of_filter. tauto. }
  split; [by apply Hmpc|]. split; [by apply Hdpc|]. done.
Qed.

Lemma get_info_groups_on_any_communicator_witness :
  ∃ i, get_info pairwise_mpi (view 4 [0; 1; 2; 3; 4]) 4 2 7 true false 4 2
       = Ok i
       ∧ mp_comm i = [4] ∧ dp_comm i = [0; 2; 4].
Proof.
  destruct (get_info_groups_on_any_communicator pairwise_mpi
              (view 4 [0; 1; 2; 3; 4]) 4 2 7 true false 4 2)
    as (i & Hi & _); [lia | repeat constructor; by vm_compute |].
  exists i. split; [exact Hi|].
  vm_compute in Hi. injection Hi as <-. split; reflexivity.
Defined.

(** ** The naive collectors on every input *)

Section naive_more.
Context {A : Type}.
Implicit Types (a g s x : ndarray A).

Lemma col_block_full n m a : has_shape (n, m) a → col_block m a 0 = a.
Proof.
  intros Ha. pose proof (has_shape_uniform _ _ _ Ha) as Hu.
  destruct Ha as [_ [= _ Hc]]. destruct a as [c rs]. cbn in *. subst c.
  unfold col_block. cbn. f_equal.
  rewrite <- (list_fmap_id rs) at 2. apply list_fmap_ext.
  intros i row Hrow. cbn. apply take_ge.
  by rewrite (proj1 (Forall_lookup _ _) Hu i row Hrow).
Qed.

Lemma take_drop_concat_uniform (w : nat) (ls : list (list A)) (i : nat) row :
  uniform w ls → ls !! i = Some row →
  take w (drop (i * w) (concat ls)) = row.
Proof.
  intros Hu Hi.
  rewrite (drop_concat_uniform w) by done.
  replace w with (1 * w)%nat at 1 by lia.
  rewrite (take_concat_uniform w) by (by apply Forall_drop).
  rewrite (drop_S _ _ _ Hi). cbn. by rewrite app_nil_r.
Qed.

(** Concatenating arbitrary blocks of one shape. *)
Lemma concatenate1_blocks (n w : nat) (xs : list (ndarray A)) :
  xs ≠ [] → Forall (has_shape (n, w)) xs →
  ∃ t, concatenate1 xs = Ok t
       ∧ has_shape (n, (length xs * w)%nat) t
       ∧ ∀ (i : nat) x, xs !! i = Some x → col_block w t i = x.
Proof.
  intros Hne Hall.
  assert (Forall (λ b, nrows b = n) xs) as Hrows.
  { eapply Forall_impl; [exact Hall|]. by intros a [_ [= -> _]]. }
  assert (∀ r, (r < n)%nat →
            uniform w ((λ b, default [] (rows b !! r)) <$> xs)) as Huni.
  { intros r Hr. apply Forall_fmap. eapply Forall_impl; [exact Hall|].
    intros a Ha. cbn.
    destruct (lookup_lt_is_Some_2 (rows a) r) as [row Hrow].
    { by rewrite (has_shape_nrows _ _ _ Ha). }
    rewrite Hrow. cbn.
    exact (proj1 (Forall_lookup _ _) (has_shape_uniform _ _ _ Ha) r row Hrow). }
  rewrite (concatenate1_Ok xs n) by done.
  eexists. split; [reflexivity|]. split; [split|].
  - unfold wf. cbn [rows ncols]. apply Forall_fmap, Forall_seq.
    intros r Hr. cbn.
    rewrite (length_concat_uniform w) by (apply Huni; lia).
    rewrite length_fmap.
    rewrite (list_fmap_ext ncols (λ _, w) xs), sum_list_const; [done|].
    intros i a Ha. by destruct (proj1 (Forall_lookup _ _) Hall i a Ha)
      as [_ [= _ ->]].
  - unfold shape, nrows. cbn [rows ncols].
    rewrite length_fmap, length_seq.
    rewrite (list_fmap_ext ncols (λ _, w) xs), sum_list_const; [done|].
    intros i a Ha. by destruct (proj1 (Forall_lookup _ _) Hall i a Ha)
      as [_ [= _ ->]].
  - intros i x Hi.
    pose proof (proj1 (Forall_lookup _ _) Hall i x Hi) as Hx.
    pose proof (has_shape_nrows _ _ _ Hx) as Hn.
    destruct Hx as [_ [= _ Hc]]. destruct x as [c rs]. cbn in Hn, Hc.
    subst c. unfold col_block. cbn [rows]. f_equal.
    rewrite <- list_fmap_compose.
    transitivity ((λ r, default [] (rs !! r)) <$> seq 0 (length rs));
      [|apply fmap_lookup_seq].
    rewrite Hn. apply list_fmap_ext. intros j r Hr.
    apply lookup_seq in Hr as [Er Hr]. cbn in Er. subst j. cbn [compose].
    apply (take_drop_concat_uniform w _ i); [by apply Huni|].
    by rewrite list_lookup_fmap, Hi.
Qed.

End naive_more.

(** X7. [naive_collect_backward_output] on every input: a zero
    [mp_size] is a division by zero; a negative one, or one that does not
    divide the width, is a [ValueError]; an index outside
    [-mp_size, mp_size) is an [IndexError]; any other index, counted from
    the end when negative, selects its column block. *)
Theorem naive_backward_output_cases {A} (T : ndarray A) (idx mp_size : Z) :
  let n := Z.of_nat (ncols T) in
  (mp_size = 0 →
   naive_collect_backward_output T idx mp_size = Raise ZeroDivisionError)
  ∧ (mp_size < 0 ∨ (mp_size ≠ 0 ∧ n mod mp_size ≠ 0) →
     naive_collect_backward_output T idx mp_size = Raise ValueError)
  ∧ (0 < mp_size → n mod mp_size = 0 →
     (idx < - mp_size ∨ mp_size ≤ idx →
      naive_collect_backward_output T idx mp_size = Raise IndexError)
     ∧ (- mp_size ≤ idx < mp_size →
        naive_collect_backward_output T idx mp_size
        = Ok (col_block (ncols T `div` Z.to_nat mp_size) T
                (Z.to_nat (idx mod mp_size))))).
Proof.
  intros n. unfold naive_collect_backward_output, split1.
  split; [|split].
  - by intros ->.
  - intros Hbad. assert (mp_size ≠ 0) as Hnz by lia.
    rewrite pymod_Ok by done. cbn [mbind result_bind].
    destruct (decide (n mod mp_size ≠ 0)) as [Hr|Hr];
      [by rewrite decide_True|].
    rewrite decide_False by done. rewrite decide_True by lia. done.
  - intros Hmp Hdiv. rewrite pymod_Ok by lia. cbn [mbind result_bind].
    fold n. rewrite Hdiv.
    rewrite decide_False by (intros Hne; by apply Hne).
    rewrite decide_False by lia. cbn [mbind result_bind].
    unfold getitem. rewrite length_fmap, length_seq, Z2Nat.id by lia.
    split.
    + intros Hout. cbv zeta.
      destruct (decide (idx < 0)); by rewrite decide_False by lia.
    + intros Hin. cbv zeta.
      assert ((if decide (idx < 0) then idx + mp_size else idx)
              = idx mod mp_size) as ->.
      { case_decide.
        - apply (Z.mod_unique_pos idx mp_size (-1)); lia.
        - symmetry. apply Z.mod_small. lia. }
      pose proof (Z.mod_pos_bound idx mp_size Hmp).
      rewrite decide_True by lia.
      rewrite list_lookup_fmap, lookup_seq_lt by lia. done.
Qed.

Lemma naive_backward_output_cases_witness :
  let T := NDArray 4 [[1; 2; 3; 4]; [5; 6; 7; 8]] in
  naive_collect_backward_output T (-1) 2 = Ok (NDArray 2 [[3; 4]; [7; 8]])
  ∧ naive_collect_backward_output T 2 2 = Raise IndexError
  ∧ naive_collect_backward_output T 0 3 = Raise ValueError.
Proof.
  intros T.
  destruct (naive_backward_output_cases T (-1) 2) as (_ & _ & H1).
  destruct (naive_backward_output_cases T 2 2) as (_ & _ & H2).
  destruct (naive_backward_output_cases T 0 3) as (_ & H3 & _).
  split; [|split].
  - apply H1; [lia | reflexivity | lia].
  - apply H2; [lia | reflexivity | lia].
  - apply H3. right. by vm_compute.
Defined.

(** X8. Gathering arbitrary local tensors.  When the members of a
    non-empty group hold tensors of one shape [(n, w)], each forward
    collector returns on every member the same tensor, of shape
    [(n, size * w)], whose column block [i] is member [i]'s tensor; and
    [naive_collect_backward_output] gives every member its own tensor
    back. *)
Theorem naive_gather_blocks {A} (n w : nat) (xs : list (ndarray A)) :
  xs ≠ [] → Forall (has_shape (n, w)) xs →
  let mp_size := Z.of_nat (length xs) in
  ∃ t, has_shape (n, (length xs * w)%nat) t
    ∧ ∀ (i : nat) x, xs !! i = Some x →
        naive_collect_forward_input x (view i xs) mp_size = Ok t
        ∧ naive_collect_forward_output x (view i xs) mp_size = Ok t
        ∧ col_block w t i = x
        ∧ naive_collect_backward_output t (Z.of_nat i) mp_size = Ok x.
Proof.
  intros Hne Hall mp_size.
  destruct (concatenate1_blocks n w xs Hne Hall) as (t & Ht & Hsh & Hblk).
  exists t. split; [done|]. intros i x Hi.
  unfold naive_collect_forward_input, naive_collect_forward_output, allgather.
  rewrite (round_view i xs x Hi), Ht. cbn [mbind result_bind].
  repeat split; [by apply Hblk|].
  pose proof (lookup_lt_Some _ _ _ Hi) as Hlt.
  unfold naive_collect_backward_output, mp_size.
  rewrite (split1_col_blocks n (length xs) w) by (done || lia).
  cbn [mbind result_bind].
  rewrite (getitem_lookup _ i (col_block w t i))
    by (by apply lookup_col_blocks).
  by rewrite (Hblk i x Hi).
Qed.

Lemma naive_gather_blocks_witness :
  let x0 := NDArray 1 [[1]; [3]] in
  let x1 := NDArray 1 [[2]; [4]] in
  ∃ t, naive_collect_forward_output x1 (view 1 [x0; x1]) 2 = Ok t
       ∧ naive_collect_backward_output t 1 2 = Ok x1.
Proof.
  intros x0 x1.
  destruct (naive_gather_blocks 2 1 [x0; x1]) as (t & _ & Hall);
    [done | by repeat constructor |].
  destruct (Hall 1%nat x1 eq_refl) as (_ & Hf & _ & Hb).
  exists t. split; [exact Hf | exact Hb].
Defined.

(** X9. A group of one member: the four naive collectors return the
    member's own tensor. *)
Theorem naive_single_member_identity {A} (add : A → A → A) (impl : MPI)
    (n m : nat) (g : ndarray A) (mp_size : Z) :
  has_shape (n, m) g →
  naive_collect_forward_input g (Group [] []) mp_size = Ok g
  ∧ naive_collect_forward_output g (Group [] []) mp_size = Ok g
  ∧ naive_collect_backward_output g 0 1 = Ok g
  ∧ naive_collect_backward_x add impl g (Group [] []) 1 = Ok g.
Proof.
  intros Hg.
  assert (Forall (has_shape (n, m)) [g]) as Hall by (by constructor).
  destruct (concatenate1_blocks n m [g]) as (t & Ht & Hsh & Hblk);
    [done | done |].
  cbn [length] in Hsh. rewrite Nat.mul_1_l in Hsh.
  assert (t = g) as ->.
  { rewrite <- (Hblk 0%nat g eq_refl). symmetry.
    by apply (col_block_full n). }
  unfold naive_collect_forward_input, naive_collect_forward_output, allgather.
  change (round (Group [] []) g) with [g]. rewrite Ht.
  repeat split.
  - unfold naive_collect_backward_output.
    pose proof (split1_col_blocks n 1 m g) as Hsplit.
    rewrite Nat.mul_1_l in Hsplit. change (Z.of_nat 1) with 1 in Hsplit.
    rewrite Hsplit by (done || lia). cbn [mbind result_bind].
    pose proof (getitem_lookup [col_block m g 0] 0 _ eq_refl) as Hitem.
    change (Z.of_nat 0) with 0 in Hitem. cbn [fmap list_fmap seq].
    rewrite Hitem. by rewrite (col_block_full n).
  - assert (Forall (has_shape (n, (1 * m)%nat)) [g]) as Hall1
      by (by rewrite Nat.mul_1_l).
    destruct (naive_collect_backward_x_sum add impl n 1 m [g])
      as (s & Hs & Hret); [done..|].
    specialize (Hret 0%nat g eq_refl).
    change (Z.of_nat 1) with 1 in Hret.
    change (view 0 _) with (@Group (list A * nat) [] []) in Hret.
    rewrite Hret. rewrite Nat.mul_1_l in Hs.
    rewrite (sum_of_one add n m g _ s Hg Hs).
    by rewrite (col_block_full n).
Qed.

Lemma naive_single_member_identity_witness :
  let g := NDArray 2 [[1; 2]; [3; 4]; [5; 6]] in
  naive_collect_forward_output g (Group [] []) 1 = Ok g
  ∧ naive_collect_backward_x Z.add pairwise_mpi g (Group [] []) 1 = Ok g.
Proof.
  intros g.
  destruct (naive_single_member_identity Z.add pairwise_mpi 3 2 g 1)
    as (_ & Hf & _ & Hb); [by repeat constructor|].
  split; [exact Hf | exact Hb].
Defined.

(** X10. Errors of [naive_collect_backward_x].  A zero [mp_size] is a
    division by zero.  On a group of [mp_size >= 1] members whose
    gradients have one shape with at least one row, a width that
    [mp_size] does not divide makes the receive counts fall short of the
    send buffer, and the reduce-scatter raises a [ValueError]. *)
Theorem naive_backward_x_errors {A} (add : A → A → A) (impl : MPI) :
  (∀ (g : ndarray A) mp_comm,
     naive_collect_backward_x add impl g mp_comm 0 = Raise ZeroDivisionError)
  ∧ (∀ (Gs : list (ndarray A)) (batch_size in_dim mp_size : nat),
       (1 ≤ mp_size)%nat → (1 ≤ batch_size)%nat → length Gs = mp_size →
       Forall (has_shape (batch_size, in_dim)) Gs →
       (in_dim `mod` mp_size ≠ 0)%nat →
       let sends := (λ G, backward_x_buffers G (Z.of_nat mp_size)) <$> Gs in
       ∀ (i : nat) g, Gs !! i = Some g →
         naive_collect_backward_x add impl g (view i sends)
           (Z.of_nat mp_size)
         = Raise ValueError).
Proof.
  split; [reflexivity|].
  intros Gs b n k Hk Hb Hlen Hall Hmod sends i g Hi.
  set (w := (n `div` k)%nat).
  assert (Z.of_nat n / Z.of_nat k = Z.of_nat w) as Hw
    by (unfold w; by rewrite Nat2Z.inj_div).
  assert (sends = (λ G, (flatten (transpose G), (w * b)%nat)) <$> Gs) as ->.
  { unfold sends. apply list_fmap_ext. intros j G HG.
    destruct (proj1 (Forall_lookup _ _) Hall j G HG) as [_ HsG].
    unfold backward_x_buffers. rewrite HsG, Hw. f_equal. lia. }
  assert (has_shape (b, n) g) as Hg
    by exact (proj1 (Forall_lookup _ _) Hall i g Hi).
  unfold naive_collect_backward_x, ascontiguousarray, copy.
  rewrite (proj2 Hg), floordiv_Ok by lia. cbn [mbind result_bind].
  rewrite Hw. unfold empty. rewrite decide_False by lia.
  cbn [mbind result_bind]. rewrite <- Nat2Z.inj_mul, Nat2Z.id.
  unfold Reduce_scatter.
  rewrite (round_view i _ (flatten (transpose g), (w * b)%nat))
    by (by rewrite list_lookup_fmap, Hi).
  rewrite <- !list_fmap_compose. unfold compose. cbn [fst snd].
  rewrite sum_list_const, Hlen.
  rewrite (length_flatten n b) by (by apply has_shape_transpose).
  pose proof (Nat.div_mod_eq n k) as Hdm. fold w in Hdm.
  rewrite decide_True; [done|]. nia.
Qed.

Lemma naive_backward_x_errors_witness :
  let g0 := NDArray 3 [[1; 2; 3]] in
  let g1 := NDArray 3 [[4; 5; 6]] in
  naive_collect_backward_x Z.add pairwise_mpi g0
    (view 0 ((λ G, backward_x_buffers G 2) <$> [g0; g1])) 2
  = Raise ValueError.
Proof.
  intros g0 g1.
  destruct (naive_backward_x_errors Z.add pairwise_mpi) as [_ Herr].
  apply (Herr [g0; g1] 1%nat 3%nat 2%nat);
    [lia | lia | reflexivity | by repeat constructor | by vm_compute
    | reflexivity].
Defined.

(** X11. The two sum-reductions keep the shape: on a non-empty group
    whose members pass well-formed arrays of one shape,
    [megatron_collect_forward_output] returns a well-formed array of that
    shape, and [collect_weight_grad] a weight gradient and a bias gradient
    of the shapes the members passed. *)
Theorem reductions_keep_shape {A} (add : A → A → A) (impl : MPI) :
  (∀ sh (outs : list (ndarray A)) (i : nat) out mp_size,
     Forall (has_shape sh) outs → outs !! i = Some out →
     ∃ s, megatron_collect_forward_output add impl out (view i outs) mp_size
          = Ok s
          ∧ has_shape sh s)
  ∧ (∀ shw shb (grads : list (ndarray A * ndarray A)) (i : nat) gw gb,
       Forall (λ g, has_shape shw g.1 ∧ has_shape shb g.2) grads →
       grads !! i = Some (gw, gb) →
       ∃ sw sb, collect_weight_grad add impl gw gb (view i grads)
                = Ok (sw, sb)
                ∧ has_shape shw sw ∧ has_shape shb sb).
Proof.
  split.
  - intros [n m] outs i out mp_size Hall Hi.
    destruct (Allreduce_sum add impl n m outs) as (s & Hs & Hr);
      [by destruct outs | done |].
    exists s. split; [by apply Hr | apply Hs].
  - intros [nw mw] [nb mb] grads i gw gb Hall Hi.
    assert (Forall (has_shape (nw, mw)) (fst <$> grads)) as Hw.
    { apply Forall_fmap. eapply Forall_impl; [exact Hall|]. by intros g [? _]. }
    assert (Forall (has_shape (nb, mb)) (snd <$> grads)) as Hb.
    { apply Forall_fmap. eapply Forall_impl; [exact Hall|]. by intros g [_ ?]. }
    unfold collect_weight_grad. rewrite !comm_map_view.
    destruct (Allreduce_sum add impl nw mw (fst <$> grads))
      as (sw & Hsw & Hrw); [by destruct grads | done |].
    destruct (Allreduce_sum add impl nb mb (snd <$> grads))
      as (sb & Hsb & Hrb); [by destruct grads | done |].
    rewrite (Hrw i gw) by (by rewrite list_lookup_fmap, Hi).
    cbn [mbind result_bind].
    rewrite (Hrb i gb) by (by rewrite list_lookup_fmap, Hi).
    cbn [mbind result_bind].
    exists sw, sb. split; [done|]. split; [apply Hsw | apply Hsb].
Qed.

Lemma reductions_keep_shape_witness :
  ∃ s, megatron_collect_forward_output Z.add pairwise_mpi
         (NDArray 2 [[1; 2]])
         (view 0 [NDArray 2 [[1; 2]]; NDArray 2 [[3; 4]]]) 2 = Ok s
       ∧ has_shape (1%nat, 2%nat) s.
Proof.
  destruct (reductions_keep_shape Z.add pairwise_mpi) as [Hm _].
  apply Hm; [by repeat constructor | reflexivity].
Defined.



(** ** The shard planner and the collectors at the layer boundary *)

(** X13. Naive strategy, hidden width [h = mp_size * w].  The planner
    gives the first layer the output width [w] and the second layer the
    input width [h]; the forward input collector turns the members'
    first-layer outputs of width [w] into a tensor of the second layer's
    input width, and [naive_collect_backward_x] turns the members'
    gradients of that width back into tensors of the first layer's output
    width.  (A rank that is no C [int] is an [OverflowError] in the
    planner.) *)
Theorem naive_layer_boundary {A} (add : A → A → A) impl comm rank dp_size
    (mp_size w batch_size : nat) in_dim out_dim :
  (1 ≤ mp_size)%nat → 0 ≤ rank →
  let mp := Z.of_nat mp_size in
  let h := Z.of_nat (mp_size * w) in
  (rank ≤ INT_MAX →
   ∃ fc1 fc2,
     get_info impl comm rank mp dp_size true false in_dim h = Ok fc1
     ∧ get_info impl comm rank mp dp_size false false h out_dim = Ok fc2
     ∧ part_out_dim fc1 = Z.of_nat w ∧ part_in_dim fc2 = h
     ∧ (∀ (xs : list (ndarray A)) (i : nat) x,
          length xs = mp_size →
          Forall (has_shape (batch_size, Z.to_nat (part_out_dim fc1))) xs →
          xs !! i = Some x →
          ∃ t, naive_collect_forward_input x (view i xs) mp = Ok t
               ∧ has_shape (batch_size, Z.to_nat (part_in_dim fc2)) t)
     ∧ (∀ (Gs : list (ndarray A)) (i : nat) g,
          length Gs = mp_size →
          Forall (has_shape (batch_size, Z.to_nat (part_in_dim fc2))) Gs →
          Gs !! i = Some g →
          ∃ t, naive_collect_backward_x add impl g
                 (view i ((λ G, backward_x_buffers G mp) <$> Gs)) mp = Ok t
               ∧ has_shape (batch_size, Z.to_nat (part_out_dim fc1)) t))
  ∧ (INT_MAX < rank →
     get_info impl comm rank mp dp_size true false in_dim h
     = Raise OverflowError
     ∧ get_info impl comm rank mp dp_size false false h out_dim
       = Raise OverflowError).
Proof.
  intros Hk Hr mp h. subst mp h.
  split; [|intros; split; apply get_info_overflow; lia].
  intros Hfit.
  rewrite !get_info_returns by lia. do 2 eexists.
  split; [reflexivity|]. split; [reflexivity|].
  cbn [part_in_dim part_out_dim splits_out orb negb].
  assert (Z.of_nat (mp_size * w) / Z.of_nat mp_size = Z.of_nat w) as ->.
  { rewrite Nat2Z.inj_mul, Z.mul_comm, Z.div_mul by lia. done. }
  rewrite !Nat2Z.id. repeat split.
  - intros xs i x Hlen Hall Hi.
    destruct (concatenate1_blocks batch_size w xs) as (t & Ht & Hsh & _);
      [by destruct xs | done |].
    exists t. rewrite Hlen in Hsh. split; [|done].
    unfold naive_collect_forward_input, allgather.
    by rewrite (round_view i xs x Hi), Ht.
  - intros Gs i g Hlen Hall Hi.
    destruct (naive_collect_backward_x_sum add impl batch_size mp_size w Gs
                Hk Hlen Hall) as (s & Hs & Hret).
    eexists. split; [exact (Hret i g Hi)|].
    pose proof (lookup_lt_Some _ _ _ Hi) as Hik. rewrite Hlen in Hik.
    apply (has_shape_col_block w mp_size); [apply Hs | done].
Qed.

Lemma naive_layer_boundary_witness :
  ∃ fc1 fc2,
    get_info pairwise_mpi (view 1 (seqZ 0 2)) 1 2 1 true false 8 4 = Ok fc1
    ∧ get_info pairwise_mpi (view 1 (seqZ 0 2)) 1 2 1 false false 4 3
      = Ok fc2
    ∧ part_out_dim fc1 = 2 ∧ part_in_dim fc2 = 4.
Proof.
  destruct (naive_layer_boundary Z.add pairwise_mpi (view 1 (seqZ 0 2))
              1 1 2 2 1 8 3) as [Hret _]; [lia | lia |].
  destruct Hret as (fc1 & fc2 & H1 & H2 & Ho & Hi & _);
    [unfold INT_MAX; lia|].
  exists fc1, fc2. repeat split; [exact H1 | exact H2 | exact Ho | exact Hi].
Defined.

(** X14. Megatron strategy, any hidden width [h].  The planner gives the
    first layer's output and the second layer's input the same local
    width [h // mp_size], which is why the input collector has nothing to
    collect, and leaves the second layer's output at its full width, the
    shape [megatron_collect_forward_output] keeps.  (A rank that is no C
    [int] is an [OverflowError] in the planner.) *)
Theorem megatron_layer_boundary {A} (add : A → A → A) impl comm rank
    mp_size dp_size is_megatron_mp in_dim h out_dim (batch_size : nat) :
  0 < mp_size → 0 ≤ rank → 0 ≤ out_dim →
  (rank ≤ INT_MAX →
   ∃ fc1 fc2,
     get_info impl comm rank mp_size dp_size true is_megatron_mp in_dim h
     = Ok fc1
     ∧ get_info impl comm rank mp_size dp_size false true h out_dim = Ok fc2
     ∧ part_out_dim fc1 = part_in_dim fc2
     ∧ part_in_dim fc2 = h / mp_size
     ∧ part_out_dim fc2 = out_dim
     ∧ (∀ (outs : list (ndarray A)) (i : nat) out,
          Forall (has_shape (batch_size, Z.to_nat (part_out_dim fc2))) outs →
          outs !! i = Some out →
          ∃ t, megatron_collect_forward_output add impl out (view i outs)
                 mp_size = Ok t
               ∧ has_shape (batch_size, Z.to_nat out_dim) t))
  ∧ (INT_MAX < rank →
     get_info impl comm rank mp_size dp_size true is_megatron_mp in_dim h
     = Raise OverflowError
     ∧ get_info impl comm rank mp_size dp_size false true h out_dim
       = Raise OverflowError).
Proof.
  intros Hmp Hr Hout.
  split; [|intros; split; apply get_info_overflow; lia].
  intros Hfit.
  rewrite !get_info_returns by lia. do 2 eexists.
  split; [reflexivity|]. split; [reflexivity|]. cbn.
  repeat split.
  intros outs i out Hall Hi.
  destruct (Allreduce_sum add impl batch_size (Z.to_nat out_dim) outs)
    as (s & Hs & Hret); [by destruct outs | exact Hall |].
  exists s. split; [by apply Hret | apply Hs].
Qed.

Lemma megatron_layer_boundary_witness :
  ∃ fc1 fc2,
    get_info pairwise_mpi (view 1 (seqZ 0 2)) 1 2 1 true true 8 4 = Ok fc1
    ∧ get_info pairwise_mpi (view 1 (seqZ 0 2)) 1 2 1 false true 4 3 = Ok fc2
    ∧ part_out_dim fc1 = 2 ∧ part_in_dim fc2 = 2 ∧ part_out_dim fc2 = 3.
Proof.
  destruct (megatron_layer_boundary Z.add pairwise_mpi (view 1 (seqZ 0 2))
              1 2 1 true 8 4 3 1) as [Hret _]; [lia | lia | lia |].
  destruct Hret as (fc1 & fc2 & H1 & H2 & Ho & Hi & Hf & _);
    [unfold INT_MAX; lia|].
  exists fc1, fc2. rewrite Ho, Hi.
  repeat split; [exact H1 | exact H2 | exact Hf].
Defined.
